(** * liboffkv: error translation, blocking work queue and continuation scheduler

    A shallow embedding of [src/error.hpp] and [src/time_machine.hpp].

    - C++ exceptions are values of one inductive type [exception]; a call
      that may throw returns a [result].
    - [BlockingQueue] is a record of its two data members.  Every member
      function runs under [lock_], so a call is one atomic state
      transformer; the calls it makes on [consumer_cv_] are returned next
      to the new state, and a call that reaches [consumer_cv_.wait]
      returns [Waits].
    - [TimeMachine] items are pairs of closures over a world; the worker
      threads, the clients and the destructor are the threads of an
      interleaving step relation. *)

From Stdlib Require Import NArith ZArith Lia String.
From stdpp Require Import base list.

Set Default Proof Using "Type".

(** ** Exceptions *)

(** [zk::error_code] of the ZooKeeper client library: the three enumerators
    that [error.hpp] names, and every other enumerator by its integer. *)
Inductive zk_error_code :=
| no_entry
| entry_exists
| version_mismatch
| zk_other_code (raw : Z).

(** [std::future_errc], for the errors [std::promise] raises. *)
Inductive future_errc :=
| promise_already_satisfied
| no_state.

(** Every exception object of the program, by dynamic class. *)
Inductive exception :=
(* error.hpp *)
| InvalidAddress
| InvalidKey
| NoEntry
| EntryExists
(* time_machine.hpp *)
| QueueClosed
(* backend libraries *)
| zk_error (code : zk_error_code) (message : string)
| ppconsul_BadStatus (status : Z) (message : string)
| ppconsul_kv_UpdateError (message : string)
(* standard library and user code *)
| future_error (code : future_errc)
| other_exception (message : string).

(** [what()] of the classes declared in the sources. *)
Definition what (e : exception) : string :=
  match e with
  | InvalidAddress => "invalid address"%string
  | InvalidKey => "invalid key"%string
  | NoEntry => "no entry"%string
  | EntryExists => "entry exists"%string
  | QueueClosed => "Queue closed for Puts"%string
  | zk_error _ m | ppconsul_BadStatus _ m | ppconsul_kv_UpdateError m
  | other_exception m => m
  | future_error promise_already_satisfied => "promise already satisfied"%string
  | future_error no_state => "no state"%string
  end.

(** How a C++ call completes. *)
Inductive result (A : Type) :=
| Returns (a : A)
| Throws (e : exception).
Arguments Returns {A} a.
Arguments Throws {A} e.

(** ** error.hpp *)

Module Error.

(** A call either completes or reaches [__builtin_unreachable()]. *)
Inductive behaviour (A : Type) :=
| Defined (r : result A)
| Undefined.
Arguments Defined {A} r.
Arguments Undefined {A}.

(** [liboffkv_try(f)]: the three handlers in their textual order; an
    exception of any other class is not caught. *)
Definition liboffkv_try {A : Type} (f : unit -> result A) : behaviour A :=
  match f tt with
  | Returns a => Defined (Returns a)
  | Throws (zk_error code m as e) =>
      match code with
      | no_entry => Defined (Throws NoEntry)
      | entry_exists => Defined (Throws EntryExists)
      | version_mismatch => Defined (Throws e)
      | zk_other_code _ => Undefined
      end
  | Throws (ppconsul_BadStatus _ _ as e) => Defined (Throws e)
  | Throws (ppconsul_kv_UpdateError _ as e) => Defined (Throws e)
  | Throws e => Defined (Throws e)
  end.

(** The exception classes that belong to a backend library. *)
Definition backend_specific (e : exception) : bool :=
  match e with
  | zk_error _ _ | ppconsul_BadStatus _ _ | ppconsul_kv_UpdateError _ => true
  | _ => false
  end.

(** The error classes that [error.hpp] declares for callers. *)
Definition canonical (e : exception) : bool :=
  match e with
  | InvalidAddress | InvalidKey | NoEntry | EntryExists => true
  | _ => false
  end.

(** [call_get(res)]: [res.get()] under the translator. *)
Definition call_get {A : Type} (res_get : unit -> result A) : behaviour A :=
  liboffkv_try (fun _ => res_get tt).

(** [call_get_then_ignore(res)]: the value is dropped. *)
Definition call_get_then_ignore {A : Type} (res_get : unit -> result A)
  : behaviour unit :=
  liboffkv_try (fun _ =>
    match res_get tt with
    | Returns _ => Returns tt
    | Throws e => Throws e
    end).

End Error.

(** ** time_machine.hpp: BlockingQueue *)

(** A call on [std::condition_variable consumer_cv_]. *)
Inductive cv_call :=
| notify_one
| notify_all.

(** A call that may have to wait on the condition variable. *)
Inductive blocking (A : Type) :=
| Ready (a : A)
| Waits.
Arguments Ready {A} a.
Arguments Waits {A}.

Module BlockingQueue.
Section Queue.
Context {T : Type}.

(** The data members [items_] (front of the deque first) and [closed_]. *)
Record t := mk { items_ : list T; closed_ : bool }.

(** [explicit BlockingQueue()]. *)
Definition create : t := mk [] false.

(** [isEmpty()]. *)
Definition isEmpty (q : t) : bool :=
  match items_ q with
  | [] => true
  | _ :: _ => false
  end.

(** [put(item)]. *)
Definition put (q : t) (item : T) : result unit * t * list cv_call :=
  if closed_ q then (Throws QueueClosed, q, [])
  else (Returns tt, mk (items_ q ++ [item]) (closed_ q), [notify_one]).

(** [bool get(T& item)].  The loop [while (!closed_ && isEmpty()) wait]
    is the first statement under the lock and [wait] gives the lock
    back, so a thread that waits re-runs the call on the state it finds
    when it is woken: [Waits] leaves the queue as it is.  The second
    component of the answer is the content of [item] after the call. *)
Definition get (q : t) (item : T) : blocking (bool * T) * t :=
  if negb (closed_ q) && isEmpty q then (Waits, q)
  else
    match items_ q with
    | [] => (Ready (false, item), q)
    | front :: rest => (Ready (true, front), mk rest (closed_ q))
    end.

(** The [for] loop of the batch [get]: [count] times, push the front of
    the deque on [out_items] and pop it. *)
Fixpoint drain (count : nat) (out_items items : list T) : list T * list T :=
  match count with
  | O => (out_items, items)
  | S count' =>
      match items with
      | [] => (out_items, items)
      | front :: rest => drain count' (out_items ++ [front]) rest
      end
  end.

(** [bool get(std::vector<T>& out_items, size_t max_count,
    bool require_at_least_one)]. *)
Definition get_batch (q : t) (out_items : list T) (max_count : N)
    (require_at_least_one : bool) : blocking (bool * list T) * t :=
  if (max_count =? 0)%N then (Ready (true, out_items), q)
  else if require_at_least_one && (negb (closed_ q) && isEmpty q)
  then (Waits, q)
  else if require_at_least_one && isEmpty q
  then (Ready (false, out_items), q)
  else
    let count := N.min max_count (N.of_nat (length (items_ q))) in
    let '(out_items', items') :=
      drain (N.to_nat count) out_items (items_ q) in
    (Ready (true, out_items'), mk items' (closed_ q)).

(** [close()]. *)
Definition close (q : t) : t * list cv_call :=
  (mk (items_ q) true, [notify_all]).

(** Closed and empty: the state in which a [get] that must deliver
    returns false. *)
Definition drained (q : t) : Prop := closed_ q = true /\ isEmpty q = true.

(** *** Call sequences

    The calls threads make on one queue, in the order in which they take
    the lock. *)
Inductive call :=
| call_put (item : T)
| call_get (item : T)
| call_get_batch (out_items : list T) (max_count : N)
    (require_at_least_one : bool)
| call_close
| call_isEmpty.

Inductive answer :=
| put_answer (r : result unit) (notified : list cv_call)
| get_answer (r : blocking (bool * T))
| get_batch_answer (r : blocking (bool * list T))
| close_answer (notified : list cv_call)
| isEmpty_answer (b : bool).

Definition perform (q : t) (c : call) : answer * t :=
  match c with
  | call_put item => let '(r, q', cv) := put q item in (put_answer r cv, q')
  | call_get item => let '(r, q') := get q item in (get_answer r, q')
  | call_get_batch out_items max_count require_at_least_one =>
      let '(r, q') := get_batch q out_items max_count require_at_least_one in
      (get_batch_answer r, q')
  | call_close => let '(q', cv) := close q in (close_answer cv, q')
  | call_isEmpty => (isEmpty_answer (isEmpty q), q)
  end.

Fixpoint run (calls : list call) (q : t) : list answer * t :=
  match calls with
  | [] => ([], q)
  | c :: calls' =>
      let '(a, q') := perform q c in
      let '(answers, q'') := run calls' q' in
      (a :: answers, q'')
  end.

(** The items a call took out of the queue, read off its answer. *)
Definition taken (c : call) (a : answer) : list T :=
  match c, a with
  | call_get _, get_answer (Ready (true, item)) => [item]
  | call_get_batch out_items _ _, get_batch_answer (Ready (_, out_items')) =>
      drop (length out_items) out_items'
  | _, _ => []
  end.

Fixpoint handed_out (calls : list call) (answers : list answer) : list T :=
  match calls, answers with
  | c :: calls', a :: answers' => taken c a ++ handed_out calls' answers'
  | _, _ => []
  end.

(** The item a call added to the queue, read off its answer. *)
Definition accepted (c : call) (a : answer) : list T :=
  match c, a with
  | call_put item, put_answer (Returns _) _ => [item]
  | _, _ => []
  end.

Fixpoint all_accepted (calls : list call) (answers : list answer) : list T :=
  match calls, answers with
  | c :: calls', a :: answers' => accepted c a ++ all_accepted calls' answers'
  | _, _ => []
  end.

End Queue.
Arguments t : clear implicits.
Arguments call : clear implicits.
Arguments answer : clear implicits.
End BlockingQueue.

(** ** time_machine.hpp: TimeMachine *)

Module TimeMachine.

(** [size_t] and [long long] arithmetic of a 64-bit target. *)
Definition size_t_sub (a b : N) : N := ((a + 2 ^ 64 - b mod 2 ^ 64) mod 2 ^ 64)%N.

Definition long_long (z : Z) : Z := ((z + 2 ^ 63) mod 2 ^ 64 - 2 ^ 63)%Z.

Section Scheduler.
(** The state the callables read and write. *)
Context {W : Type}.

(** [QueueData]: a [std::function<bool(std::chrono::milliseconds)>] and a
    [std::function<void()>]. *)
Definition QueueData : Type := (N -> W -> bool * W) * (W -> W).

(** The loop of [process_objects_].  [it] is the distance of the iterator
    from [picked.begin()]; [picked.erase(it)] moves the tail one place to
    the front and the loop goes on from the same storage position, as a
    vector iterator over contiguous storage does.  [steps] bounds the
    number of iterations. *)
Fixpoint process_loop (steps : nat) (wait_for_object_ms : N) (it : nat)
    (picked : list QueueData) (w : W) : list QueueData * W :=
  match steps with
  | O => (picked, w)
  | S steps' =>
      match (picked !! it : option QueueData) with
      | None => (picked, w)
      | Some item =>
          let '(ready, w1) := fst item wait_for_object_ms w in
          if ready
          then process_loop steps' wait_for_object_ms (S it)
                 (delete it picked) (snd item w1)
          else process_loop steps' wait_for_object_ms (S it) picked w1
      end
  end.

(** [process_objects_(picked)]: the iterator advances at every iteration
    and [picked] never grows, so [length picked] iterations are enough
    (see [process_loop_enough]). *)
Definition process_objects_ (wait_for_object_ms : N)
    (picked : list QueueData) (w : W) : list QueueData * W :=
  process_loop (length picked) wait_for_object_ms 0 picked w.

(** The pass written by recursion on the part of [picked] that the
    iterator has not reached: an item that is not ready is kept; a ready
    item is run and erased, and the item behind it, which takes its place,
    is stepped over and kept without being probed
    (see [process_objects_by_suffix]). *)
Fixpoint process_suffix (wait_for_object_ms : N) (rest : list QueueData)
    (w : W) : list QueueData * W :=
  match rest with
  | [] => ([], w)
  | item :: rest1 =>
      let '(ready, w1) := fst item wait_for_object_ms w in
      if ready
      then
        match rest1 with
        | [] => ([], snd item w1)
        | stepped_over :: rest2 =>
            let '(kept, w2) :=
              process_suffix wait_for_object_ms rest2 (snd item w1) in
            (stepped_over :: kept, w2)
        end
      else
        let '(kept, w2) := process_suffix wait_for_object_ms rest1 w1 in
        (item :: kept, w2)
  end.

(** [picked.empty()]. *)
Definition vector_empty (picked : list QueueData) : bool :=
  match picked with
  | [] => true
  | _ :: _ => false
  end.

(** *** Threads *)

(** Where a worker thread stands in the lambda of [run_thread_]. *)
Inductive worker :=
| spawned                                (* before [state_->fetch_add(1)] *)
| at_get (picked : list QueueData)       (* at the loop condition *)
| at_process (picked : list QueueData)   (* [get] returned true *)
| at_fetch_sub                           (* [get] returned false *)
| exited.

(** Where the thread that destroys the machine stands in [~TimeMachine()]. *)
Inductive destructor :=
| not_called
| wait_queue        (* [while (!queue_->isEmpty()) yield()] *)
| wait_state        (* [while (state_->load())] *)
| returned.

Record machine := mk_machine {
  queue_ : BlockingQueue.t QueueData;
  state_ : Z;
  objects_per_thread_ : N;
  wait_for_object_ms_ : N;
  workers : list worker;
  dtor : destructor;
  world : W
}.

(** The constructor: [number_of_threads] calls of [run_thread_]. *)
Definition create (number_of_threads : nat) (objects_per_thread : N)
    (wait_for_object_ms : N) (w : W) : machine :=
  mk_machine BlockingQueue.create 0 objects_per_thread wait_for_object_ms
    (replicate number_of_threads spawned) not_called w.

Definition with_worker (m : machine) (i : nat) (t : worker) : machine :=
  mk_machine (queue_ m) (state_ m) (objects_per_thread_ m)
    (wait_for_object_ms_ m) (<[i := t]> (workers m)) (dtor m) (world m).

Definition with_queue (m : machine) (q : BlockingQueue.t QueueData) : machine :=
  mk_machine q (state_ m) (objects_per_thread_ m) (wait_for_object_ms_ m)
    (workers m) (dtor m) (world m).

Definition with_state (m : machine) (z : Z) : machine :=
  mk_machine (queue_ m) z (objects_per_thread_ m) (wait_for_object_ms_ m)
    (workers m) (dtor m) (world m).

Definition with_dtor (m : machine) (d : destructor) : machine :=
  mk_machine (queue_ m) (state_ m) (objects_per_thread_ m)
    (wait_for_object_ms_ m) (workers m) d (world m).

Definition with_world (m : machine) (w : W) : machine :=
  mk_machine (queue_ m) (state_ m) (objects_per_thread_ m)
    (wait_for_object_ms_ m) (workers m) (dtor m) w.

(** One step of worker [i]; [None] when the thread cannot move (it waits
    on the condition variable, or is gone). *)
Definition worker_step (m : machine) (i : nat) : option machine :=
  match workers m !! i with
  | Some spawned =>
      Some (with_state (with_worker m i (at_get []))
              (long_long (state_ m + 1)))
  | Some (at_get picked) =>
      match BlockingQueue.get_batch (queue_ m) picked
              (size_t_sub (objects_per_thread_ m) (N.of_nat (length picked)))
              (vector_empty picked) with
      | (Waits, _) => None
      | (Ready (true, picked'), q) =>
          Some (with_queue (with_worker m i (at_process picked')) q)
      | (Ready (false, _), q) =>
          Some (with_queue (with_worker m i at_fetch_sub) q)
      end
  | Some (at_process picked) =>
      let '(picked', w) :=
        process_objects_ (wait_for_object_ms_ m) picked (world m) in
      Some (with_world (with_worker m i (at_get picked')) w)
  | Some at_fetch_sub =>
      Some (with_state (with_worker m i exited) (long_long (state_ m - 1)))
  | Some exited | None => None
  end.

(** One step of [~TimeMachine()]; a loop whose condition holds goes round.
    [isEmpty()] is read without the lock and [state_->load()] is an atomic
    load: each is one step.  The destructor returns on the load that reads
    zero. *)
Definition destructor_step (m : machine) : option machine :=
  match dtor m with
  | not_called =>
      Some (with_dtor (with_queue m (BlockingQueue.close (queue_ m)).1)
              wait_queue)
  | wait_queue =>
      if BlockingQueue.isEmpty (queue_ m)
      then Some (with_dtor m wait_state) else Some m
  | wait_state =>
      if (state_ m =? 0)%Z then Some (with_dtor m returned) else Some m
  | returned => None
  end.

(** What a thread of the program does next.  [put_item] is the
    [queue_->put] of a [then] running on any thread (a caller's, or a
    worker's inside an action); [environment] is any other change of the
    world, such as a backend completing a future. *)
Inductive event :=
| worker_moves (i : nat)
| put_item (item : QueueData)
| environment (change : W -> W)
| destructor_moves.

Definition step (m : machine) (e : event) : option machine :=
  match e with
  | worker_moves i => worker_step m i
  | put_item item => Some (with_queue m (BlockingQueue.put (queue_ m) item).1.2)
  | environment change => Some (with_world m (change (world m)))
  | destructor_moves => destructor_step m
  end.

(** The state after a schedule, [None] if some event of it cannot happen. *)
Fixpoint exec (m : machine) (schedule : list event) : option machine :=
  match schedule with
  | [] => Some m
  | e :: schedule' =>
      match step m e with
      | Some m' => exec m' schedule'
      | None => None
      end
  end.

(** *** Predicates on the threads *)

(** The worker is past its [while] loop. *)
Definition left_loop (t : worker) : bool :=
  match t with
  | at_fetch_sub | exited => true
  | spawned | at_get _ | at_process _ => false
  end.

(** The worker is between its [fetch_add] and its [fetch_sub]. *)
Definition active (t : worker) : bool :=
  match t with
  | at_get _ | at_process _ | at_fetch_sub => true
  | spawned | exited => false
  end.

Fixpoint active_workers (ws : list worker) : nat :=
  match ws with
  | [] => 0
  | t :: ws' => (if active t then 1 else 0) + active_workers ws'
  end.

(** The [picked] vector of a worker that is inside its loop. *)
Definition buffer_of (t : worker) : list QueueData :=
  match t with
  | at_get picked | at_process picked => picked
  | spawned | at_fetch_sub | exited => []
  end.

(** No worker holds more than [objects_per_thread_] items. *)
Definition within_capacity (objects_per_thread : N) (m : machine) : Prop :=
  objects_per_thread_ m = objects_per_thread
  /\ forall i t, workers m !! i = Some t ->
       (N.of_nat (length (buffer_of t)) <= objects_per_thread)%N.

(** The worker has not begun, or goes round its loop with nothing picked. *)
Definition idle (t : worker) : Prop :=
  t = spawned \/ t = at_get [] \/ t = at_process [].

Definition b2z (b : bool) : Z := if b then 1%Z else 0%Z.

(** [state_] is the number of workers between [fetch_add] and
    [fetch_sub]. *)
Definition counter_invariant (n : nat) (m : machine) : Prop :=
  length (workers m) = n
  /\ state_ m = Z.of_nat (active_workers (workers m)).

(** What holds in every state the threads can reach: the queue is closed
    once the destructor has begun, and it is closed and empty once the
    destructor is past its first loop or some worker is past its loop. *)
Definition shutdown_invariant (m : machine) : Prop :=
  (dtor m <> not_called -> BlockingQueue.closed_ (queue_ m) = true)
  /\ (dtor m = wait_state \/ dtor m = returned
      \/ (exists i t, workers m !! i = Some t /\ left_loop t = true) ->
      BlockingQueue.drained (queue_ m)).

End Scheduler.
Arguments QueueData : clear implicits.
Arguments worker : clear implicits.
Arguments machine : clear implicits.
Arguments event : clear implicits.

(** *** Futures, promises and [then] *)

Section Then.
(** One type for the values of all the [T] and [U] the template is used at. *)
Context {V : Type}.

(** The shared state of a [std::promise] and its [std::future]. *)
Inductive shared_state :=
| not_ready
| has_value (v : V)
| has_exception (e : exception).

(** The world of the callables [then] builds is the store of shared states;
    a future or a promise is the index of its shared state. *)
Definition state_at (s : list shared_state) (f : nat) : shared_state :=
  default not_ready (s !! f).

(** [future.wait_for(timeout) == std::future_status::ready].  The wait is
    not a step of its own: a future completed during the wait is one
    completed before the call. *)
Definition wait_for (f : nat) (timeout : N) (s : list shared_state) : bool :=
  match state_at s f with
  | not_ready => false
  | has_value _ | has_exception _ => true
  end.

(** [promise.set_value(v)] and [promise.set_exception(e)]. *)
Definition satisfy (p : nat) (st : shared_state) (s : list shared_state)
  : result unit * list shared_state :=
  match s !! p with
  | Some not_ready => (Returns tt, <[p := st]> s)
  | Some _ => (Throws (future_error promise_already_satisfied), s)
  | None => (Throws (future_error no_state), s)
  end.

Definition set_value (p : nat) (v : V) := satisfy p (has_value v).

Definition set_exception (p : nat) (e : exception) := satisfy p (has_exception e).

(** [try { body } catch (...) { handler(std::current_exception()) }]. *)
Definition try_catch {A S : Type} (body : S -> result A * S)
    (handler : exception -> S -> result A * S) (s : S) : result A * S :=
  match body s with
  | (Returns a, s1) => (Returns a, s1)
  | (Throws e, s1) => handler e s1
  end.

(** The second lambda of [then].  [func] is given the input future, which
    it owns from then on; both arms of the [if constexpr] store what
    [func] returned. *)
Definition then_action (future_ptr promise : nat)
    (func : shared_state -> result V) (s : list shared_state)
  : list shared_state :=
  snd (try_catch
         (try_catch
            (fun s0 =>
               match func (state_at s0 future_ptr) with
               | Returns to => set_value promise to s0
               | Throws e => (Throws e, s0)
               end)
            (fun current_exception => set_exception promise current_exception))
         (fun _ s0 => (Returns tt, s0))
         s).

(** The pair [then] puts on the queue. *)
Definition then_item (future_ptr promise : nat)
    (func : shared_state -> result V) : QueueData (list shared_state) :=
  (fun timeout_duration s => (wait_for future_ptr timeout_duration s, s),
   then_action future_ptr promise func).

(** [then(future, func)]: the new promise takes the next free index of the
    store; when [put] throws, unwinding releases it again.  The answer is
    [new_future]. *)
Definition then_ (m : machine (list shared_state)) (future : nat)
    (func : shared_state -> result V)
  : result nat * machine (list shared_state) :=
  let promise := length (world m) in
  match BlockingQueue.put (queue_ m) (then_item future promise func) with
  | (Returns _, q, _) =>
      (Returns promise,
       with_world (with_queue m q) (world m ++ [not_ready]))
  | (Throws e, _, _) => (Throws e, m)
  end.

End Then.
Arguments shared_state : clear implicits.

(** *** Callables that record their invocations *)

Inductive invocation :=
| is_ready_invoked (id : nat) (timeout_ms : N)
| action_invoked (id : nat).

(** An item whose probe answers [ready]; both callables append to a log. *)
Definition recording (id : nat) (ready : bool) : QueueData (list invocation) :=
  (fun timeout_ms log => (ready, log ++ [is_ready_invoked id timeout_ms]),
   fun log => log ++ [action_invoked id]).

(** *** A run of one worker through shutdown *)

(** One worker starts, an item is put, the worker takes it and runs it;
    then the destructor closes the queue and the worker leaves, and the
    destructor passes its first loop. *)
Definition shutdown_schedule : list (event (list invocation)) :=
  [worker_moves 0; put_item (recording 0 true); worker_moves 0;
   worker_moves 0; destructor_moves; worker_moves 0; worker_moves 0;
   destructor_moves].

(** The destructor runs to its end before the worker thread has begun;
    the worker begins afterwards. *)
Definition late_start_schedule : list (event (list invocation)) :=
  [destructor_moves; destructor_moves; destructor_moves; worker_moves 0].

(** A continuation in the style of [call_get]: [future.get()] plus one. *)
Definition get_plus_one (st : shared_state nat) : result nat :=
  match st with
  | has_value v => Returns (S v)
  | has_exception e => Throws e
  | not_ready => Throws (future_error no_state)
  end.

End TimeMachine.

(** ** result.hpp: TransactionResult *)

Module TransactionResult.
Section Results.
(** [op::op_type] is declared in [operation.hpp]; the second component of
    an [OperationResult] is its [std::shared_ptr<Result>]. *)
Context {op_type Result_ptr : Type}.

Definition OperationResult : Type := op_type * Result_ptr.

(** The data member [op_results_], first element first. *)
Definition t : Type := list OperationResult.

(** [TransactionResult()]. *)
Definition create : t := [].

(** [push_back(res)]. *)
Definition push_back (r : t) (res : OperationResult) : t := r ++ [res].

(** [emplace_back(type, result)]: the element is built in place by the
    constructor of [OperationResult]. *)
Definition emplace_back (r : t) (type : op_type) (result : Result_ptr) : t :=
  r ++ [(type, result)].

(** [pop_back()]; on an empty vector the call is undefined. *)
Definition pop_back (r : t) : option t :=
  match r with
  | [] => None
  | _ :: _ => Some (removelast r)
  end.

(** What a loop from [begin()] to [end()] visits. *)
Definition elements (r : t) : list OperationResult := r.

(** [count] calls of [pop_back]. *)
Fixpoint pop_back_times (count : nat) (r : t) : option t :=
  match count with
  | O => Some r
  | S count' =>
      match pop_back r with
      | Some r' => pop_back_times count' r'
      | None => None
      end
  end.

End Results.
End TransactionResult.

(** * Properties *)

(** ** error.hpp *)

Section ErrorFacts.
Import Error.

(** An exception of a class no handler names passes through. *)
Lemma liboffkv_try_not_caught {A : Type} (f : unit -> result A) e :
  f tt = Throws e -> backend_specific e = false ->
  liboffkv_try f = Defined (Throws e).
Proof.
  intros Hf Hb. unfold liboffkv_try. rewrite Hf.
  destruct e; simpl in Hb; congruence.
Qed.

(** C1, as the code has it: a normal result is returned unchanged;
    [zk::error] with code [no_entry] becomes [NoEntry] and with code
    [entry_exists] becomes [EntryExists]; [zk::error] with code
    [version_mismatch], [ppconsul::BadStatus] and
    [ppconsul::kv::UpdateError] are thrown again as they are; an exception
    of any other class propagates unchanged. *)
Theorem liboffkv_try_translation {A : Type} (f : unit -> result A) :
  (forall a, f tt = Returns a -> liboffkv_try f = Defined (Returns a))
  /\ (forall m, f tt = Throws (zk_error no_entry m) ->
        liboffkv_try f = Defined (Throws NoEntry))
  /\ (forall m, f tt = Throws (zk_error entry_exists m) ->
        liboffkv_try f = Defined (Throws EntryExists))
  /\ (forall m, f tt = Throws (zk_error version_mismatch m) ->
        liboffkv_try f = Defined (Throws (zk_error version_mismatch m)))
  /\ (forall status m, f tt = Throws (ppconsul_BadStatus status m) ->
        liboffkv_try f = Defined (Throws (ppconsul_BadStatus status m)))
  /\ (forall m, f tt = Throws (ppconsul_kv_UpdateError m) ->
        liboffkv_try f = Defined (Throws (ppconsul_kv_UpdateError m)))
  /\ (forall e, f tt = Throws e -> backend_specific e = false ->
        liboffkv_try f = Defined (Throws e)).
Proof.
  repeat split; intros; try (unfold liboffkv_try; rewrite H; reflexivity).
  eapply liboffkv_try_not_caught; eassumption.
Qed.

Lemma liboffkv_try_translation_witness :
  liboffkv_try (fun _ => @Throws nat (zk_error no_entry "no node"%string))
  = Defined (Throws NoEntry).
Proof.
  apply (proj1 (proj2 (liboffkv_try_translation
           (fun _ => @Throws nat (zk_error no_entry "no node"%string))))
           "no node"%string).
  reflexivity.
Defined.

(** C1 as stated fails: a callable that throws [zk::error] with code
    [version_mismatch] makes [liboffkv_try] throw that same [zk::error], a
    backend class. *)
Lemma liboffkv_try_backend_exception_escapes :
  ~ (forall (f : unit -> result nat) e,
       f tt = Throws e -> backend_specific e = true ->
       exists k, liboffkv_try f = Defined (Throws k)
                 /\ backend_specific k = false).
Proof.
  intros claim.
  destruct (claim (fun _ => Throws (zk_error version_mismatch "bad version"%string))
              (zk_error version_mismatch "bad version"%string)
              eq_refl eq_refl) as [k [Hk Hb]].
  simpl in Hk. inversion Hk; subst k. discriminate Hb.
Qed.

End ErrorFacts.

(** ** BlockingQueue *)

Section QueueFacts.
Context {T : Type}.
Import BlockingQueue.
Implicit Types (q : BlockingQueue.t T) (item : T) (out_items : list T).

Lemma isEmpty_true q : isEmpty q = true <-> items_ q = [].
Proof. unfold isEmpty. destruct (items_ q); split; congruence. Qed.

Lemma isEmpty_false q :
  isEmpty q = false <-> exists front rest, items_ q = front :: rest.
Proof.
  unfold isEmpty. destruct (items_ q) as [|x l]; split.
  - discriminate.
  - intros (? & ? & ?). discriminate.
  - eauto.
  - reflexivity.
Qed.

(** The loop of the batch [get] moves a prefix of the deque, in order. *)
Lemma drain_take_drop count out_items (items : list T) :
  drain count out_items items
  = (out_items ++ take count items, drop count items).
Proof.
  revert out_items items.
  induction count as [|n IH]; intros out items; simpl.
  - by rewrite app_nil_r.
  - destruct items as [|x items]; simpl.
    + by rewrite app_nil_r.
    + rewrite IH. by rewrite <- app_assoc.
Qed.

(** C5: [put] on a closed queue raises [QueueClosed]; on an open queue it
    returns, the item is the new back of the queue, the older items keep
    their places, and [notify_one] is called once. *)
Theorem put_spec q item :
  (closed_ q = true -> (put q item).1.1 = Throws QueueClosed)
  /\ (closed_ q = false ->
      put q item = (Returns tt, mk (items_ q ++ [item]) false, [notify_one])).
Proof.
  unfold put. split; intros ->; reflexivity.
Qed.

(** C10: a [put] that raises [QueueClosed] leaves the queue as it was and
    makes no call on the condition variable. *)
Theorem put_closed_unchanged q item :
  closed_ q = true -> put q item = (Throws QueueClosed, q, []).
Proof.
  intros Hc. unfold put. by rewrite Hc.
Qed.

(** C6: the single-item [get] returns false exactly when the queue is
    empty and closed, and then changes neither [item] nor the queue; on a
    queue that is not empty it returns true, [item] is the front and the
    front is removed; it waits exactly when the queue is empty and open. *)
Theorem get_spec q item :
  ((exists out, (get q item).1 = Ready (false, out))
     <-> isEmpty q = true /\ closed_ q = true)
  /\ (isEmpty q = true -> closed_ q = true ->
      get q item = (Ready (false, item), q))
  /\ (forall front rest, items_ q = front :: rest ->
      get q item = (Ready (true, front), mk rest (closed_ q)))
  /\ ((get q item).1 = Waits <-> isEmpty q = true /\ closed_ q = false)
  /\ ((get q item).1 = Waits -> (get q item).2 = q).
Proof.
  unfold get, isEmpty.
  destruct q as [[|x l] [|]]; simpl; repeat split; intros;
    repeat match goal with
      | H : _ /\ _ |- _ => destruct H
      | H : ex _ |- _ => destruct H
      end;
    try congruence; eauto.
Qed.

(** The batch [get] on an empty queue, when it is asked for something. *)
Lemma get_batch_empty q out_items max_count require_at_least_one :
  max_count <> 0%N -> isEmpty q = true ->
  get_batch q out_items max_count require_at_least_one
  = (if require_at_least_one
     then if closed_ q then Ready (false, out_items) else Waits
     else Ready (true, out_items), q).
Proof.
  intros Hmax He. apply N.eqb_neq in Hmax.
  unfold get_batch. rewrite Hmax, He.
  destruct require_at_least_one, (closed_ q) eqn:Hc; simpl; try done.
  all: apply isEmpty_true in He; rewrite He, N.min_0_r; simpl.
  all: destruct q as [l c]; simpl in *; by subst.
Qed.

(** The batch [get] on a queue that is not empty. *)
Lemma get_batch_moves q out_items max_count require_at_least_one :
  max_count <> 0%N -> isEmpty q = false ->
  get_batch q out_items max_count require_at_least_one
  = (Ready (true, out_items
                  ++ take (Nat.min (N.to_nat max_count) (length (items_ q)))
                       (items_ q)),
     mk (drop (Nat.min (N.to_nat max_count) (length (items_ q))) (items_ q))
        (closed_ q)).
Proof.
  intros Hmax He. apply N.eqb_neq in Hmax.
  unfold get_batch. rewrite Hmax, He, !andb_false_r.
  rewrite drain_take_drop.
  replace (N.to_nat (N.min max_count (N.of_nat (length (items_ q)))))
    with (Nat.min (N.to_nat max_count) (length (items_ q))) by lia.
  reflexivity.
Qed.

(** C9: with [max_count = 0] the batch [get] returns true at once, in every
    state of the queue, and changes neither [out_items] nor the queue. *)
Theorem get_batch_zero q out_items require_at_least_one :
  get_batch q out_items 0 require_at_least_one = (Ready (true, out_items), q).
Proof. reflexivity. Qed.

(** C7: for [max_count > 0], with [require_at_least_one] the batch [get]
    waits while the queue is empty and open and returns false, moving
    nothing, when it is empty and closed; on a queue that is not empty it
    appends the first [min max_count size] items to [out_items] in queue
    order and removes them; without [require_at_least_one] on an empty
    queue it returns true at once and moves nothing. *)
Theorem get_batch_spec q out_items max_count :
  max_count <> 0%N ->
  (isEmpty q = true -> closed_ q = false ->
   get_batch q out_items max_count true = (Waits, q))
  /\ (isEmpty q = true -> closed_ q = true ->
      get_batch q out_items max_count true = (Ready (false, out_items), q))
  /\ (forall require_at_least_one, isEmpty q = false ->
      let n := Nat.min (N.to_nat max_count) (length (items_ q)) in
      get_batch q out_items max_count require_at_least_one
      = (Ready (true, out_items ++ take n (items_ q)),
         mk (drop n (items_ q)) (closed_ q)))
  /\ (isEmpty q = true ->
      get_batch q out_items max_count false = (Ready (true, out_items), q)).
Proof.
  intros Hmax. repeat split.
  - intros He Hc. by rewrite get_batch_empty, Hc.
  - intros He Hc. by rewrite get_batch_empty, Hc.
  - intros req He. by apply get_batch_moves.
  - intros He. by rewrite get_batch_empty.
Qed.

(** *** What the calls keep *)

Lemma put_keeps_closed q item : closed_ (put q item).1.2 = closed_ q.
Proof. unfold put. destruct (closed_ q) eqn:Hc; simpl; congruence. Qed.

Lemma put_drained q item : drained q -> (put q item).1.2 = q.
Proof. intros [Hc _]. unfold put. by rewrite Hc. Qed.

Lemma get_batch_keeps_closed q out_items max_count require_at_least_one :
  closed_ (get_batch q out_items max_count require_at_least_one).2 = closed_ q.
Proof.
  unfold get_batch.
  destruct (max_count =? 0)%N; [done|].
  destruct (require_at_least_one && (negb (closed_ q) && isEmpty q)); [done|].
  destruct (require_at_least_one && isEmpty q); [done|].
  by rewrite drain_take_drop.
Qed.

Lemma get_batch_keeps_empty q out_items max_count require_at_least_one :
  isEmpty q = true ->
  isEmpty (get_batch q out_items max_count require_at_least_one).2 = true.
Proof.
  intros He. unfold get_batch.
  destruct (max_count =? 0)%N; [done|].
  destruct (require_at_least_one && (negb (closed_ q) && isEmpty q)); [done|].
  destruct (require_at_least_one && isEmpty q); [done|].
  rewrite drain_take_drop. simpl.
  apply isEmpty_true in He. unfold isEmpty. simpl. rewrite He.
  by rewrite drop_nil.
Qed.

(** The batch [get] returns false only on a closed and empty queue. *)
Lemma get_batch_false q out_items max_count require_at_least_one out_items' :
  (get_batch q out_items max_count require_at_least_one).1
  = Ready (false, out_items') ->
  drained q
  /\ (get_batch q out_items max_count require_at_least_one).2 = q.
Proof.
  unfold get_batch, drained.
  destruct (max_count =? 0)%N; [discriminate|].
  destruct require_at_least_one, (closed_ q), (isEmpty q); simpl;
    try discriminate; try done.
  all: rewrite drain_take_drop; discriminate.
Qed.

(** *** After [close()] *)

Lemma perform_closed q c :
  closed_ q = true ->
  closed_ (perform q c).2 = true
  /\ items_ q = taken c (perform q c).1 ++ items_ (perform q c).2.
Proof.
  intros Hc. destruct q as [l cl]; simpl in Hc; subst cl.
  destruct c as [item|item|out n req| |]; simpl; auto.
  - destruct l; simpl; auto.
  - destruct (N.eq_dec n 0%N) as [->|Hn].
    { unfold get_batch. simpl. by rewrite drop_all. }
    destruct (isEmpty (mk l true)) eqn:He.
    + rewrite get_batch_empty by done.
      destruct req; simpl; by rewrite drop_all.
    + rewrite get_batch_moves by done. simpl.
      rewrite drop_app_length. by rewrite take_drop.
Qed.

Lemma run_closed calls : forall q,
  closed_ q = true ->
  closed_ (run calls q).2 = true
  /\ items_ q = handed_out calls (run calls q).1 ++ items_ (run calls q).2.
Proof.
  induction calls as [|c calls IH]; intros q Hc; simpl.
  - auto.
  - destruct (perform_closed q c Hc) as [Hc' Hitems].
    destruct (perform q c) as [a q'] eqn:Hp; simpl in *.
    destruct (IH q' Hc') as [Hc'' Hitems'].
    destruct (run calls q') as [answers q''] eqn:Hr; simpl in *.
    split; [done|]. rewrite Hitems, Hitems'. by rewrite app_assoc.
Qed.

(** The state in which the [i]-th call of a sequence is made. *)
Lemma run_lookup calls : forall q i c,
  calls !! i = Some c ->
  (run calls q).1 !! i = Some (perform (run (take i calls) q).2 c).1
  /\ (run (take i calls) q).1 = take i (run calls q).1.
Proof.
  induction calls as [|c0 calls IH]; intros q i c Hi; [done|].
  destruct i as [|i]; simpl in *.
  - inversion Hi; subst c0.
    destruct (perform q c) as [a q'], (run calls q') as [answers q''].
    by simpl.
  - destruct (IH (perform q c0).2 i c Hi) as [H1 H2].
    destruct (perform q c0) as [a q'] eqn:Hp; simpl in *.
    destruct (run calls q') as [answers q''] eqn:Hr; simpl in *.
    destruct (run (take i calls) q') as [answers_i q_i] eqn:Hri; simpl in *.
    split; [done|]. by rewrite H2.
Qed.

Lemma run_take_closed calls q i :
  closed_ q = true ->
  closed_ (run (take i calls) q).2 = true
  /\ items_ q
     = handed_out (take i calls) (take i (run calls q).1)
       ++ items_ (run (take i calls) q).2.
Proof.
  intros Hc. destruct (run_closed (take i calls) q Hc) as [H1 H2].
  split; [done|]. rewrite H2 at 1. f_equal. f_equal.
  destruct (calls !! i) as [c|] eqn:Hi.
  - by destruct (run_lookup calls q i c Hi) as [_ ->].
  - apply lookup_ge_None in Hi. rewrite (take_ge calls) by done.
    rewrite take_ge; [done|].
    clear -Hi. revert q i Hi. induction calls as [|c calls IH]; intros q i Hi; simpl.
    + lia.
    + destruct (perform q c) as [a q']. specialize (IH q').
      destruct (run calls q') as [answers q'']; simpl in *.
      destruct i; [lia|]. specialize (IH i). lia.
Qed.

(** C4: after [close()], in every sequence of calls, every [put] raises
    [QueueClosed]; the single-item [get] returns the oldest item that was
    in the queue at the close and has not been handed out yet, or false
    once all of them have been handed out; all gets together hand out a
    prefix of those items, in order, and the rest stays queued. *)
Theorem close_then_calls q calls :
  let q0 := (close q).1 in
  let answers := (run calls q0).1 in
  closed_ (run calls q0).2 = true
  /\ (forall i item, calls !! i = Some (call_put item) ->
      answers !! i = Some (put_answer (Throws QueueClosed) []))
  /\ (forall i item, calls !! i = Some (call_get item) ->
      answers !! i
      = Some (get_answer (Ready
          match items_ q !! length (handed_out (take i calls) (take i answers)) with
          | Some front => (true, front)
          | None => (false, item)
          end)))
  /\ items_ q = handed_out calls answers ++ items_ (run calls q0).2.
Proof.
  simpl. set (q0 := mk (items_ q) true).
  assert (Hc : closed_ q0 = true) by reflexivity.
  destruct (run_closed calls q0 Hc) as [Hfinal Hitems].
  split; [done|]. split; [|split; [|done]].
  - intros i item Hi.
    destruct (run_lookup calls q0 i _ Hi) as [-> _].
    destruct (run_take_closed calls q0 i Hc) as [Hci _].
    simpl. unfold put. by rewrite Hci.
  - intros i item Hi.
    destruct (run_lookup calls q0 i _ Hi) as [-> _].
    destruct (run_take_closed calls q0 i Hc) as [Hci Hsplit].
    simpl in Hsplit. rewrite Hsplit.
    rewrite lookup_app_r by lia. rewrite Nat.sub_diag.
    destruct (run (take i calls) q0) as [answers_i [l cl]]; simpl in *.
    subst cl. unfold get; simpl. by destruct l.
Qed.

End QueueFacts.

Section QueueExamples.
Import BlockingQueue.

Lemma put_spec_witness :
  put (mk [1; 2] false) 3 = (Returns tt, mk [1; 2; 3] false, [notify_one])
  /\ (put (mk [1; 2] true) 3).1.1 = Throws QueueClosed.
Proof.
  split.
  - apply (proj2 (put_spec (mk [1; 2] false) 3)). reflexivity.
  - apply (proj1 (put_spec (mk [1; 2] true) 3)). reflexivity.
Defined.

Lemma put_closed_unchanged_witness :
  put (mk [1; 2] true) 3 = (Throws QueueClosed, mk [1; 2] true, []).
Proof.
  apply (put_closed_unchanged (mk [1; 2] true) 3). reflexivity.
Defined.

Lemma get_spec_witness :
  get (mk [7; 8] false) 0 = (Ready (true, 7), mk [8] false)
  /\ get (mk [] true) 0 = (Ready (false, 0), mk [] true).
Proof.
  split.
  - apply (proj1 (proj2 (proj2 (get_spec (mk [7; 8] false) 0))) 7 [8]).
    reflexivity.
  - apply (proj1 (proj2 (get_spec (mk [] true) 0))); reflexivity.
Defined.

Lemma get_batch_spec_witness :
  2%N <> 0%N
  /\ get_batch (mk [1; 2; 3] false) [9] 2 true
     = (Ready (true, [9; 1; 2]), mk [3] false).
Proof.
  split; [discriminate|].
  apply (proj1 (proj2 (proj2 (get_batch_spec (mk [1; 2; 3] false) [9] 2%N
           ltac:(discriminate)))) true).
  reflexivity.
Defined.

Lemma close_then_calls_witness :
  (run [call_put 5; call_get 0; call_get 0] (close (mk [7] false)).1).1 !! 2
  = Some (get_answer (Ready (false, 0))).
Proof.
  apply (proj1 (proj2 (proj2 (close_then_calls (mk [7] false)
           [call_put 5; call_get 0; call_get 0]))) 2 0).
  reflexivity.
Defined.

(** A closed queue with two items, asked for five things. *)
Example run_after_close :
  (run [call_get 0; call_put 5; call_get 0; call_get 0; call_isEmpty]
     (close (mk [7; 8] false)).1).1
  = [get_answer (Ready (true, 7)); put_answer (Throws QueueClosed) [];
     get_answer (Ready (true, 8)); get_answer (Ready (false, 0));
     isEmpty_answer true].
Proof. reflexivity. Qed.

End QueueExamples.

(** ** TimeMachine: the processing pass *)

Section ProcessFacts.
Context {W : Type}.
Import TimeMachine.
Implicit Types (picked : list (QueueData W)) (w : W).

(** The loop condition ends every pass: once [steps] covers the distance
    to the end of [picked], more steps change nothing. *)
Lemma process_loop_enough steps : forall steps' ms it picked w,
  length picked <= it + steps ->
  length picked <= it + steps' ->
  process_loop steps ms it picked w = process_loop steps' ms it picked w.
Proof.
  induction steps as [|n IH]; intros steps' ms it picked w H1 H2.
  - assert (Hnone : picked !! it = None) by (apply lookup_ge_None; lia).
    destruct steps'; simpl; [done|]. by rewrite Hnone.
  - destruct steps' as [|n']; simpl.
    + assert (Hnone : picked !! it = None) by (apply lookup_ge_None; lia).
      by rewrite Hnone.
    + destruct (picked !! it) as [item|] eqn:Hit; [|done].
      apply lookup_lt_Some in Hit.
      destruct (item.1 ms w) as [[|] w1].
      * apply IH; rewrite length_delete by (apply lookup_lt_is_Some; lia); lia.
      * apply IH; lia.
Qed.

(** A pass never grows the buffer. *)
Lemma process_loop_length steps : forall ms it picked w,
  length (process_loop steps ms it picked w).1 <= length picked.
Proof.
  induction steps as [|n IH]; intros ms it picked w; simpl; [done|].
  destruct (picked !! it) as [item|] eqn:Hit; [|done].
  destruct (item.1 ms w) as [[|] w1].
  - etransitivity; [apply IH|].
    rewrite length_delete by eauto. lia.
  - apply IH.
Qed.

Lemma process_loop_at_end steps ms it picked w :
  length picked <= it -> process_loop steps ms it picked w = (picked, w).
Proof.
  intros Hit. destruct steps; simpl; [done|].
  by rewrite (proj2 (lookup_ge_None picked it) Hit).
Qed.

(** The loop from position [length before], with [rest] still ahead. *)
Lemma process_loop_suffix steps : forall ms before rest w,
  length rest <= steps ->
  process_loop steps ms (length before) (before ++ rest) w
  = (before ++ (process_suffix ms rest w).1, (process_suffix ms rest w).2).
Proof.
  induction steps as [|n IH]; intros ms before rest w Hn.
  - destruct rest; [|simpl in Hn; lia]. reflexivity.
  - destruct rest as [|item rest1].
    { rewrite process_loop_at_end by (rewrite app_nil_r; lia).
      reflexivity. }
    simpl in Hn. simpl.
    rewrite lookup_app_r by lia. rewrite Nat.sub_diag. simpl.
    destruct (item.1 ms w) as [[|] w1].
    + replace (delete (length before) (before ++ item :: rest1))
        with (before ++ rest1).
      2:{ clear. induction before; simpl; [done|]. by f_equal. }
      destruct rest1 as [|stepped_over rest2].
      * rewrite process_loop_at_end by (rewrite app_nil_r; lia).
        reflexivity.
      * simpl in Hn.
        replace (S (length before)) with (length (before ++ [stepped_over]))
          by (rewrite length_app; simpl; lia).
        rewrite (cons_middle stepped_over before rest2), app_assoc.
        rewrite IH by lia.
        destruct (process_suffix ms rest2 (item.2 w1)) as [kept w2]. simpl.
        by rewrite <- app_assoc.
    + replace (S (length before)) with (length (before ++ [item]))
        by (rewrite length_app; simpl; lia).
      rewrite (cons_middle item before rest1), app_assoc.
      rewrite IH by lia.
      destruct (process_suffix ms rest1 w1) as [kept w2]. simpl.
      by rewrite <- app_assoc.
Qed.

(** What a pass does, item by item. *)
Lemma process_objects_by_suffix ms picked w :
  process_objects_ ms picked w = process_suffix ms picked w.
Proof.
  unfold process_objects_.
  pose proof (process_loop_suffix (length picked) ms [] picked w) as H.
  simpl in H. rewrite H by done.
  by destruct (process_suffix ms picked w).
Qed.

End ProcessFacts.

(** C2 fails on a buffer of two items whose first is ready: the pass probes
    the first item with the configured timeout, runs its action and erases
    it, and ends; the second item is never probed and stays in the buffer. *)
Theorem process_objects_skips_item_after_erased :
  TimeMachine.process_objects_ 20
    [TimeMachine.recording 0 true; TimeMachine.recording 1 true] []
  = ([TimeMachine.recording 1 true],
     [TimeMachine.is_ready_invoked 0 20; TimeMachine.action_invoked 0]).
Proof. reflexivity. Qed.

(** ** TimeMachine: [then] *)

Section ThenFacts.
Context {V : Type}.
Import TimeMachine.
Implicit Types (s : list (shared_state V)) (func : shared_state V -> result V).

(** The action of a [then] item whose [func] throws stores the thrown
    exception in the promise, provided the promise is still unset. *)
Lemma then_action_throws future_ptr promise func s e :
  s !! promise = Some not_ready ->
  func (state_at s future_ptr) = Throws e ->
  then_action future_ptr promise func s = <[promise := has_exception e]> s.
Proof.
  intros Hp Hf. unfold then_action, try_catch. rewrite Hf.
  unfold set_exception, satisfy. by rewrite Hp.
Qed.

(** The action of a [then] item whose [func] returns stores the value. *)
Lemma then_action_returns future_ptr promise func s v :
  s !! promise = Some not_ready ->
  func (state_at s future_ptr) = Returns v ->
  then_action future_ptr promise func s = <[promise := has_value v]> s.
Proof.
  intros Hp Hf. unfold then_action, try_catch. rewrite Hf.
  unfold set_value, satisfy. by rewrite Hp.
Qed.

(** C3: when [then(future, func)] returns [new_future], the item it put is
    the new back of the queue and [new_future] is not ready; whenever the
    action of that item runs and [func] throws, [new_future] holds
    exactly the thrown exception and no other shared state changes. *)
Theorem then_propagates_exception (m m' : machine (list (shared_state V)))
    future func new_future :
  then_ m future func = (Returns new_future, m') ->
  exists item,
    BlockingQueue.items_ (queue_ m')
    = BlockingQueue.items_ (queue_ m) ++ [item]
    /\ world m' !! new_future = Some not_ready
    /\ forall s e,
         s !! new_future = Some not_ready ->
         func (state_at s future) = Throws e ->
         item.2 s = <[new_future := has_exception e]> s
         /\ state_at (item.2 s) new_future = has_exception e.
Proof.
  unfold then_, BlockingQueue.put.
  destruct (BlockingQueue.closed_ (queue_ m)) eqn:Hc; [discriminate|].
  intros Heq. inversion Heq; subst new_future m'; clear Heq.
  eexists. split; [reflexivity|]. split.
  - simpl. rewrite lookup_app_r by lia. by rewrite Nat.sub_diag.
  - intros s e Hp Hf. simpl.
    rewrite (then_action_throws _ _ _ _ e Hp Hf). split; [done|].
    unfold state_at. rewrite list_lookup_insert_eq; [done|].
    by apply lookup_lt_Some in Hp.
Qed.

End ThenFacts.

(** ** TimeMachine: shutdown *)

Section SchedulerFacts.
Context {W : Type}.
Import TimeMachine.
Implicit Types (m : machine W).

Lemma drained_closed (q : BlockingQueue.t (QueueData W)) :
  BlockingQueue.drained q -> BlockingQueue.closed_ q = true.
Proof. by intros [? ?]. Qed.

Lemma create_invariant n opt ms (w : W) :
  shutdown_invariant (create n opt ms w).
Proof.
  split; simpl; [done|].
  intros [H|[H|(i & t & Hi & Ht)]]; try discriminate.
  apply lookup_replicate in Hi as [-> _]. discriminate.
Qed.

(** A worker found past its loop after worker [i] has moved to [t] is
    worker [i] itself or was past its loop before. *)
Lemma with_worker_left_loop m i t :
  (exists j t', workers (with_worker m i t) !! j = Some t'
                /\ left_loop t' = true) ->
  left_loop t = true
  \/ exists j t', workers m !! j = Some t' /\ left_loop t' = true.
Proof.
  simpl. intros (j & t' & Hj & Ht').
  apply list_lookup_insert_Some in Hj as [(_ & <- & _)|[_ Hj]]; eauto.
Qed.

(** A move of worker [i] to a place inside the loop, with the queue left
    alone, keeps the invariant. *)
Lemma worker_stays_keeps_invariant m i t :
  left_loop t = false ->
  shutdown_invariant m ->
  forall m', queue_ m' = queue_ m -> dtor m' = dtor m ->
             workers m' = workers (with_worker m i t) ->
             shutdown_invariant m'.
Proof.
  intros Ht [Hclosed Hdrained] m' Hq Hd Hw. unfold shutdown_invariant.
  rewrite Hq, Hd, Hw. split; [done|].
  intros [H|[H|H]]; [auto..|].
  apply with_worker_left_loop in H as [H|H]; [congruence|auto].
Qed.

Lemma worker_step_invariant m i m' :
  shutdown_invariant m -> worker_step m i = Some m' -> shutdown_invariant m'.
Proof.
  intros Hinv. unfold worker_step.
  destruct (workers m !! i) as [[|picked|picked| |]|] eqn:Hi; try discriminate.
  - intros [= <-].
    by eapply (worker_stays_keeps_invariant m i (at_get [])).
  - destruct (BlockingQueue.get_batch _ _ _ _) as [[[[|] picked']|] q] eqn:Hg;
      try discriminate; intros [= <-].
    + pose proof (get_batch_keeps_closed (queue_ m) picked
        (size_t_sub (objects_per_thread_ m) (N.of_nat (length picked)))
        (vector_empty picked)) as Hkc.
      pose proof (get_batch_keeps_empty (queue_ m) picked
        (size_t_sub (objects_per_thread_ m) (N.of_nat (length picked)))
        (vector_empty picked)) as Hke.
      rewrite Hg in Hkc, Hke. simpl in Hkc, Hke.
      destruct Hinv as [Hclosed Hdrained].
      split; simpl; [by rewrite Hkc|].
      intros H.
      assert (Hd : BlockingQueue.drained (queue_ m)).
      { apply Hdrained. destruct H as [H|[H|H]]; [auto..|].
        apply (with_worker_left_loop m i (at_process picked')) in H
          as [H|H]; [discriminate|auto]. }
      destruct Hd as [Hc He]. split; [congruence|auto].
    + pose proof (get_batch_false (queue_ m) picked
        (size_t_sub (objects_per_thread_ m) (N.of_nat (length picked)))
        (vector_empty picked) picked') as Hf.
      rewrite Hg in Hf. destruct (Hf eq_refl) as [Hd Hq]. simpl in Hq.
      subst q. split; simpl; intros _; [by apply drained_closed|done].
  - destruct (process_objects_ _ _ _) as [picked' w].
    intros [= <-].
    by eapply (worker_stays_keeps_invariant m i (at_get picked')).
  - intros [= <-].
    assert (Hd : BlockingQueue.drained (queue_ m)).
    { apply Hinv. right; right. by exists i, at_fetch_sub. }
    split; simpl; intros _; [by apply drained_closed|done].
Qed.

Lemma destructor_step_invariant m m' :
  shutdown_invariant m -> destructor_step m = Some m' -> shutdown_invariant m'.
Proof.
  intros [Hclosed Hdrained]. unfold destructor_step.
  destruct (dtor m) eqn:Hd; try discriminate.
  - intros [= <-]. split; simpl; [done|].
    intros [H|[H|H]]; try discriminate.
    destruct Hdrained as [Hc He]; [auto|]. by split.
  - destruct (BlockingQueue.isEmpty (queue_ m)) eqn:He; intros [= <-].
    + split; simpl; intros _; [by apply Hclosed|].
      split; [by apply Hclosed|done].
    + split; rewrite ?Hd; auto.
  - destruct (state_ m =? 0)%Z; intros [= <-].
    + assert (BlockingQueue.drained (queue_ m)) by auto.
      split; simpl; intros _; [by apply drained_closed|done].
    + split; rewrite ?Hd; auto.
Qed.

Lemma step_invariant m e m' :
  shutdown_invariant m -> step m e = Some m' -> shutdown_invariant m'.
Proof.
  intros Hinv. destruct e as [i|item|change|]; simpl.
  - by apply worker_step_invariant.
  - intros [= <-]. destruct Hinv as [Hclosed Hdrained].
    split; simpl.
    + rewrite put_keeps_closed. done.
    + intros H. rewrite put_drained; auto.
  - by intros [= <-].
  - by apply destructor_step_invariant.
Qed.

Lemma exec_invariant schedule : forall m m',
  shutdown_invariant m -> exec m schedule = Some m' -> shutdown_invariant m'.
Proof.
  induction schedule as [|e schedule IH]; intros m m' Hinv; simpl.
  - by intros [= <-].
  - destruct (step m e) as [m1|] eqn:Hs; [|discriminate].
    apply IH. by eapply step_invariant.
Qed.

End SchedulerFacts.

(** ** The counter [state_] *)

Section CounterFacts.
Context {W : Type}.
Import TimeMachine.
Implicit Types (m : machine W) (ws : list (worker W)).

Lemma active_workers_le ws : active_workers ws <= length ws.
Proof.
  induction ws as [|t ws IH]; simpl; [done|]. destruct (active t); lia.
Qed.

Lemma active_workers_insert ws : forall i t t',
  ws !! i = Some t ->
  (Z.of_nat (active_workers (<[i := t']> ws))
   = Z.of_nat (active_workers ws) - b2z (active t) + b2z (active t'))%Z.
Proof.
  induction ws as [|t0 ws IH]; intros i t t' Hi; [done|].
  destruct i as [|i]; simpl in *.
  - inversion Hi; subst t0. unfold b2z.
    destruct (active t), (active t'); lia.
  - specialize (IH i t t' Hi). destruct (active t0); lia.
Qed.

Lemma active_workers_zero ws :
  active_workers ws = 0 ->
  forall i t, ws !! i = Some t -> active t = false.
Proof.
  induction ws as [|t0 ws IH]; intros Hz i t Hi; [done|].
  simpl in Hz. destruct i as [|i]; simpl in Hi.
  - inversion Hi; subst t0. destruct (active t); [lia|done].
  - apply (IH ltac:(destruct (active t0); lia) i t Hi).
Qed.

Lemma long_long_small z :
  (- 2 ^ 63 <= z < 2 ^ 63)%Z -> long_long z = z.
Proof.
  intros Hz. unfold long_long.
  rewrite Z.mod_small by lia. lia.
Qed.

Lemma step_counter_invariant n m e m' :
  (Z.of_nat n < 2 ^ 63)%Z ->
  counter_invariant n m -> step m e = Some m' -> counter_invariant n m'.
Proof.
  intros Hn [Hlen Hst].
  pose proof (active_workers_le (workers m)) as Hle.
  destruct e as [i|item|change|]; simpl.
  - unfold worker_step.
    destruct (workers m !! i) as [[|picked|picked| |]|] eqn:Hi;
      try discriminate.
    + intros [= <-]. split; simpl; [by rewrite length_insert|].
      pose proof (active_workers_le (<[i:=at_get []]> (workers m))) as Hle'.
      rewrite length_insert in Hle'.
      pose proof (active_workers_insert _ _ _ (at_get []) Hi) as Hins.
      unfold b2z in Hins; simpl in Hins.
      rewrite long_long_small; lia.
    + destruct (BlockingQueue.get_batch _ _ _ _) as [[[[|] picked']|] q];
        try discriminate; intros [= <-];
        (split; simpl; [by rewrite length_insert|]);
        rewrite (active_workers_insert _ _ _ _ Hi); unfold b2z; simpl; lia.
    + destruct (process_objects_ _ _ _) as [picked' w].
      intros [= <-]. split; simpl; [by rewrite length_insert|].
      rewrite (active_workers_insert _ _ _ _ Hi); unfold b2z; simpl; lia.
    + intros [= <-]. split; simpl; [by rewrite length_insert|].
      pose proof (active_workers_insert _ _ _ exited Hi) as Hins.
      unfold b2z in Hins; simpl in Hins.
      rewrite long_long_small; lia.
  - by intros [= <-].
  - by intros [= <-].
  - unfold destructor_step.
    destruct (dtor m); try discriminate.
    + by intros [= <-].
    + by destruct (BlockingQueue.isEmpty (queue_ m)); intros [= <-].
    + by destruct (state_ m =? 0)%Z; intros [= <-].
Qed.

Lemma exec_counter_invariant n schedule : forall m m',
  (Z.of_nat n < 2 ^ 63)%Z ->
  counter_invariant n m -> exec m schedule = Some m' ->
  counter_invariant n m'.
Proof.
  induction schedule as [|e schedule IH]; intros m m' Hn Hinv; simpl.
  - by intros [= <-].
  - destruct (step m e) as [m1|] eqn:Hs; [|discriminate].
    apply IH; [done|]. by eapply step_counter_invariant.
Qed.

Lemma create_counter_invariant n opt ms (w : W) :
  counter_invariant n (create n opt ms w).
Proof.
  split; simpl; [by rewrite length_replicate|].
  induction n; simpl; [done|lia].
Qed.

(** With fewer than 2^63 threads, a zero in [state_] means that no worker
    is inside its loop: each has not begun yet or has left. *)
Lemma state_zero_no_active_worker number_of_threads objects_per_thread
    wait_for_object_ms (w : W) schedule m :
  (Z.of_nat number_of_threads < 2 ^ 63)%Z ->
  exec (create number_of_threads objects_per_thread wait_for_object_ms w)
    schedule = Some m ->
  state_ m = 0%Z ->
  forall i t, workers m !! i = Some t -> t = spawned \/ t = exited.
Proof.
  intros Hn Hexec Hz i t Hi.
  destruct (exec_counter_invariant _ _ _ _ Hn
              (create_counter_invariant _ _ _ _) Hexec) as [_ Hst].
  rewrite Hz in Hst.
  pose proof (active_workers_zero (workers m) ltac:(lia) i t Hi) as Ha.
  destruct t; simpl in Ha; auto; discriminate.
Qed.

End CounterFacts.

(** ** Shutdown *)

Section ShutdownFacts.
Context {W : Type}.
Import TimeMachine.
Implicit Types (m : machine W).

(** C8: in every state the threads reach from a new machine, a worker that
    is past its loop finds the queue closed and empty, so every item was
    taken out by a worker before any worker left; the queue is closed and
    empty once the destructor has returned; the step on which the
    destructor returns leaves the queue closed and empty and [state_]
    zero; and, with fewer than 2^63 threads, a zero in [state_] means that
    no worker is between its [fetch_add] and its [fetch_sub]. *)
Theorem destructor_returns_drained number_of_threads objects_per_thread
    wait_for_object_ms (w : W) schedule m :
  exec (create number_of_threads objects_per_thread wait_for_object_ms w)
    schedule = Some m ->
  (forall i t, workers m !! i = Some t -> left_loop t = true ->
     BlockingQueue.drained (queue_ m))
  /\ (dtor m = returned -> BlockingQueue.drained (queue_ m))
  /\ (forall m', dtor m <> returned -> destructor_step m = Some m' ->
        dtor m' = returned ->
        BlockingQueue.drained (queue_ m') /\ state_ m' = 0%Z)
  /\ ((Z.of_nat number_of_threads < 2 ^ 63)%Z -> state_ m = 0%Z ->
      forall i t, workers m !! i = Some t -> active t = false).
Proof.
  intros Hexec.
  pose proof (exec_invariant _ _ _ (create_invariant _ _ _ _) Hexec)
    as Hinv.
  split; [|split; [|split]]; cycle 3.
  { intros Hn Hz i t Hi.
    destruct (state_zero_no_active_worker _ _ _ _ _ _ Hn Hexec Hz i t Hi)
      as [-> | ->]; reflexivity. }
  - intros i t Hi Ht. apply Hinv. right; right. eauto.
  - intros Hd. apply Hinv. auto.
  - intros m' Hnot Hstep Hret.
    pose proof (destructor_step_invariant _ _ Hinv Hstep) as [_ Hdr'].
    split; [auto|].
    unfold destructor_step in Hstep.
    destruct (dtor m) eqn:Hd; try done.
    + injection Hstep as <-. discriminate Hret.
    + destruct (BlockingQueue.isEmpty (queue_ m)); injection Hstep as <-;
        simpl in Hret; congruence.
    + destruct (Z.eqb_spec (state_ m) 0); injection Hstep as <-;
        simpl in *; congruence.
Qed.

End ShutdownFacts.

(** ** Worked runs of the scheduler *)

Section Runs.
Import TimeMachine.

(** A pass over not-ready items probes each of them once and keeps them. *)
Example process_objects_none_ready :
  process_objects_ 20 [recording 0 false; recording 1 false] []
  = ([recording 0 false; recording 1 false],
     [is_ready_invoked 0 20; is_ready_invoked 1 20]).
Proof. reflexivity. Qed.

(** A ready item behind a not-ready one is probed, run and erased. *)
Example process_objects_second_ready :
  process_objects_ 20 [recording 0 false; recording 1 true] []
  = ([recording 0 false],
     [is_ready_invoked 0 20; is_ready_invoked 1 20; action_invoked 1]).
Proof. reflexivity. Qed.

(** A worker's pass over the item of a [then] whose input future is ready
    and whose [func] throws: the item is erased and the promise holds the
    exception. *)
Lemma process_then_item_throws {V : Type} ms future promise
    (func : shared_state V -> result V) (s : list (shared_state V)) e :
  wait_for future ms s = true ->
  s !! promise = Some not_ready ->
  func (state_at s future) = Throws e ->
  process_objects_ ms [then_item future promise func] s
  = ([], <[promise := has_exception e]> s).
Proof.
  intros Hready Hp Hf. unfold process_objects_. simpl.
  rewrite Hready. simpl. by rewrite (then_action_throws _ _ _ _ e Hp Hf).
Qed.

Lemma then_propagates_exception_witness :
  let m := create 1 10 20 [has_exception NoEntry] in
  exists item,
    BlockingQueue.items_ (queue_ (then_ m 0 get_plus_one).2) = [] ++ [item]
    /\ world (then_ m 0 get_plus_one).2 !! 1 = Some not_ready
    /\ forall s e,
         s !! 1 = Some not_ready ->
         get_plus_one (state_at s 0) = Throws e ->
         item.2 s = <[1 := has_exception e]> s
         /\ state_at (item.2 s) 1 = has_exception e.
Proof.
  apply (then_propagates_exception
           (create 1 10 20 [has_exception NoEntry])
           (then_ (create 1 10 20 [has_exception NoEntry]) 0 get_plus_one).2
           0 get_plus_one 1).
  reflexivity.
Defined.

(** The continuation of a failed future fails with the same exception. *)
Example then_on_failed_future :
  let m := create 1 10 20 [has_exception NoEntry] in
  let m' := (then_ m 0 get_plus_one).2 in
  (process_objects_ 20 (BlockingQueue.items_ (queue_ m')) (world m')).2
  = [has_exception NoEntry; has_exception NoEntry].
Proof. reflexivity. Qed.

Lemma destructor_returns_drained_witness :
  exists m m',
    exec (create 1 10 20 []) shutdown_schedule = Some m
    /\ destructor_step m = Some m'
    /\ dtor m' = returned
    /\ BlockingQueue.drained (queue_ m') /\ state_ m' = 0%Z.
Proof.
  eexists _, _.
  split; [reflexivity|]. split; [reflexivity|]. split; [reflexivity|].
  refine (proj1 (proj2 (proj2
            (destructor_returns_drained 1 10 20 [] shutdown_schedule _ eq_refl)))
            _ _ eq_refl eq_refl).
  discriminate.
Defined.

(** The worker of [shutdown_schedule] ran the item before it left. *)
Example shutdown_schedule_ran_item :
  world <$> exec (create 1 10 20 []) shutdown_schedule
  = Some [is_ready_invoked 0 20; action_invoked 0].
Proof. reflexivity. Qed.

(** [state_] is zero when the destructor returns, but a worker whose thread
    begins only afterwards raises it again. *)
Example worker_begins_after_destructor :
  (fun m => (dtor m, state_ m, workers m)) <$>
    exec (create 1 10 20 []) late_start_schedule
  = Some (returned, 1%Z, [at_get []]).
Proof. reflexivity. Qed.

End Runs.

(** * Further properties *)

(** ** error.hpp: what the translator lets through *)

Section TranslatorFacts.
Import Error.
Context {A : Type}.
Implicit Types (f : unit -> result A).

(** [liboffkv_try] reaches [__builtin_unreachable()] exactly when the
    callable throws a [zk::error] whose code is none of [no_entry],
    [entry_exists] and [version_mismatch]. *)
Theorem liboffkv_try_undefined_iff f :
  liboffkv_try f = Undefined
  <-> exists raw m, f tt = Throws (zk_error (zk_other_code raw) m).
Proof.
  unfold liboffkv_try. split.
  - destruct (f tt) as [a|e]; [discriminate|].
    destruct e as [| | | | |code m|status m|m|code|m]; try discriminate.
    destruct code; try discriminate. eauto.
  - intros (raw & m & ->). reflexivity.
Qed.


(** [NoEntry] leaves [liboffkv_try] exactly when the callable threw
    [NoEntry] itself or a [zk::error] with code [no_entry]; likewise for
    [EntryExists] and [entry_exists]. *)
Theorem liboffkv_try_canonical_origin f :
  (liboffkv_try f = Defined (Throws NoEntry)
   <-> f tt = Throws NoEntry \/ exists m, f tt = Throws (zk_error no_entry m))
  /\ (liboffkv_try f = Defined (Throws EntryExists)
      <-> f tt = Throws EntryExists
          \/ exists m, f tt = Throws (zk_error entry_exists m)).
Proof.
  unfold liboffkv_try. split; split.
  1,3: destruct (f tt) as [a|e]; [discriminate|];
       destruct e as [| | | | |code m|status m|m|code|m]; try discriminate;
       try (destruct code; try discriminate); eauto.
  all: intros [-> | [m ->]]; reflexivity.
Qed.

(** Whatever leaves [liboffkv_try] passes a second [liboffkv_try]
    unchanged: nesting the wrapper translates nothing further. *)
Theorem liboffkv_try_fixed_point f r :
  liboffkv_try f = Defined r -> liboffkv_try (fun _ => r) = Defined r.
Proof.
  unfold liboffkv_try.
  destruct (f tt) as [a|e].
  - intros [= <-]. reflexivity.
  - destruct e as [| | | | |code m|status m|m|code|m];
      try (intros [= <-]; reflexivity).
    destruct code; try discriminate; intros [= <-]; reflexivity.
Qed.

(** [call_get_then_ignore] fails exactly as [call_get] does and drops the
    value when there is one. *)
Theorem call_get_then_ignore_as_call_get (res_get : unit -> result A) :
  call_get_then_ignore res_get
  = match call_get res_get with
    | Defined (Returns _) => Defined (Returns tt)
    | Defined (Throws e) => Defined (Throws e)
    | Undefined => Undefined
    end.
Proof.
  unfold call_get_then_ignore, call_get, liboffkv_try.
  destruct (res_get tt) as [a|e]; [reflexivity|].
  destruct e as [| | | | |code m|status m|m|code|m]; try reflexivity.
  destruct code; reflexivity.
Qed.

End TranslatorFacts.

Section TranslatorExamples.
Import Error.


Lemma liboffkv_try_fixed_point_witness :
  liboffkv_try (fun _ : unit => @Throws nat NoEntry)
  = Defined (Throws NoEntry).
Proof.
  apply (liboffkv_try_fixed_point
           (fun _ => @Throws nat (zk_error no_entry "gone"%string))
           (Throws NoEntry)).
  reflexivity.
Defined.

End TranslatorExamples.

(** ** BlockingQueue: order and conservation *)

Section FifoFacts.
Context {T : Type}.
Import BlockingQueue.
Implicit Types (q : BlockingQueue.t T) (item : T) (out_items : list T).

(** Every outcome of the batch [get]: it moves the first [k] items, where
    [k] is zero unless it returns true. *)
Lemma get_batch_shape q out_items max_count require_at_least_one :
  exists k,
    k <= N.to_nat max_count /\ k <= length (items_ q)
    /\ (get_batch q out_items max_count require_at_least_one).2
       = mk (drop k (items_ q)) (closed_ q)
    /\ ((get_batch q out_items max_count require_at_least_one).1 = Waits
        /\ k = 0
        \/ exists b,
            (get_batch q out_items max_count require_at_least_one).1
            = Ready (b, out_items ++ take k (items_ q))
            /\ (b = false -> k = 0)
            /\ (b = true -> require_at_least_one = true ->
                max_count <> 0%N -> 0 < k)).
Proof.
  destruct (N.eq_dec max_count 0%N) as [->|Hmax].
  { exists 0. unfold get_batch. simpl. rewrite app_nil_r.
    destruct q; repeat split; try lia. right. exists true.
    repeat split; try done. }
  destruct (isEmpty q) eqn:He.
  - exists 0. rewrite get_batch_empty by done. simpl. rewrite app_nil_r.
    destruct q as [l c]; simpl. repeat split; try lia.
    destruct require_at_least_one; [destruct c|]; simpl.
    + right. exists false. repeat split; done.
    + by left.
    + right. exists true. repeat split; done.
  - exists (Nat.min (N.to_nat max_count) (length (items_ q))).
    rewrite get_batch_moves by done. simpl.
    repeat split; try lia. right. exists true. repeat split; try done.
    intros _ _ _. apply isEmpty_false in He as (x & l & ->). simpl. lia.
Qed.

(** The batch [get] neither loses nor duplicates nor reorders an item:
    what it appended to [out_items], followed by what it left in the
    queue, is what the queue held; and it never touches [closed_]. *)
Theorem get_batch_conserves q out_items max_count require_at_least_one
    b out_items' q' :
  get_batch q out_items max_count require_at_least_one
  = (Ready (b, out_items'), q') ->
  out_items' ++ items_ q' = out_items ++ items_ q
  /\ out_items `prefix_of` out_items'
  /\ closed_ q' = closed_ q.
Proof.
  intros Hg.
  destruct (get_batch_shape q out_items max_count require_at_least_one)
    as (k & _ & _ & Hq & [[Hw _]|(b' & Hr & _)]); rewrite Hg in *;
    simpl in *; [discriminate|].
  injection Hr as -> ->. subst q'. simpl.
  rewrite <- app_assoc, take_drop.
  split; [done|]. split; [|done].
  by apply prefix_app_r.
Qed.

(** A batch [get] that returns true appends at most [max_count] items,
    and at least one when [require_at_least_one] is set and [max_count]
    is not zero. *)
Theorem get_batch_bounds q out_items max_count require_at_least_one
    out_items' q' :
  get_batch q out_items max_count require_at_least_one
  = (Ready (true, out_items'), q') ->
  length out_items' <= length out_items + N.to_nat max_count
  /\ (require_at_least_one = true -> max_count <> 0%N ->
      length out_items < length out_items').
Proof.
  intros Hg.
  destruct (get_batch_shape q out_items max_count require_at_least_one)
    as (k & Hk & Hl & _ & [[Hw _]|(b' & Hr & _ & Hpos)]); rewrite Hg in *;
    simpl in *; [discriminate|].
  injection Hr as <- ->. rewrite length_app, length_take.
  split; [lia|]. intros Hreq Hmax. specialize (Hpos eq_refl Hreq Hmax). lia.
Qed.

Lemma run_app calls1 : forall calls2 q,
  run (calls1 ++ calls2) q
  = ((run calls1 q).1 ++ (run calls2 (run calls1 q).2).1,
     (run calls2 (run calls1 q).2).2).
Proof.
  induction calls1 as [|c calls1 IH]; intros calls2 q; simpl.
  - by destruct (run calls2 q).
  - destruct (perform q c) as [a q1]. rewrite IH.
    destruct (run calls1 q1) as [answers1 q2]; simpl.
    by destruct (run calls2 q2).
Qed.

Lemma perform_conserves q c :
  items_ q ++ accepted c (perform q c).1
  = taken c (perform q c).1 ++ items_ (perform q c).2.
Proof.
  destruct c as [item|item|out n req| |]; simpl.
  - unfold put. destruct (closed_ q); simpl; by rewrite ?app_nil_r.
  - unfold get. destruct q as [[|x l] [|]]; simpl; by rewrite ?app_nil_r.
  - destruct (get_batch_shape q out n req)
      as (k & _ & _ & Hq & [[Hw ->]|(b' & Hr & _)]).
    + destruct (get_batch q out n req) as [r q']; simpl in *. subst r q'.
      simpl. by rewrite app_nil_r.
    + destruct (get_batch q out n req) as [r q']; simpl in *. subst r q'.
      simpl. rewrite drop_app_length, take_drop. by rewrite app_nil_r.
  - by rewrite app_nil_r.
  - by rewrite app_nil_r.
Qed.

(** In every sequence of calls on a queue, the items it held at the
    start followed by the items the puts added are, in that order, the
    items the gets handed out followed by the items still queued. *)
Theorem queue_conserves_items calls : forall q,
  items_ q ++ all_accepted calls (run calls q).1
  = handed_out calls (run calls q).1 ++ items_ (run calls q).2.
Proof.
  induction calls as [|c calls IH]; intros q; simpl.
  - by rewrite app_nil_r.
  - pose proof (perform_conserves q c) as Hstep.
    destruct (perform q c) as [a q1]; simpl in Hstep.
    specialize (IH q1).
    destruct (run calls q1) as [answers q2]; simpl in *.
    rewrite app_assoc, Hstep, <- !app_assoc. by rewrite IH.
Qed.

Lemma run_puts_open (xs : list T) : forall q,
  closed_ q = false ->
  run (call_put <$> xs) q
  = ((fun _ => put_answer (Returns tt) [notify_one]) <$> xs,
     mk (items_ q ++ xs) false).
Proof.
  induction xs as [|x xs IH]; intros q Hc; simpl.
  - rewrite app_nil_r. destruct q; simpl in *; by subst.
  - unfold put. rewrite Hc. rewrite IH by done. simpl.
    by rewrite <- app_assoc.
Qed.

Lemma run_gets_all (outs : list T) : forall (l : list T) c,
  length outs = length l ->
  run (call_get <$> outs) (mk l c)
  = ((fun x => get_answer (Ready (true, x))) <$> l, mk [] c).
Proof.
  induction outs as [|o outs IH]; intros l c Hlen;
    destruct l as [|x l]; simpl in Hlen; try lia; [done|].
  simpl. unfold get; simpl. rewrite andb_false_r.
  rewrite IH by lia. done.
Qed.

(** Put/get round trip: on an open queue, after the items [xs] are put,
    as many single-item gets as the queue holds return the older items
    and then [xs], each in the order it was put, and leave the queue
    empty and open. *)
Theorem put_get_round_trip q (xs outs : list T) :
  closed_ q = false ->
  length outs = length (items_ q ++ xs) ->
  run ((call_put <$> xs) ++ (call_get <$> outs)) q
  = (((fun _ => put_answer (Returns tt) [notify_one]) <$> xs)
     ++ ((fun x => get_answer (Ready (true, x))) <$> (items_ q ++ xs)),
     mk [] false).
Proof.
  intros Hc Hlen. rewrite run_app, run_puts_open by done. simpl.
  by rewrite run_gets_all.
Qed.

Lemma perform_keeps_closed q c :
  c <> call_close -> closed_ (perform q c).2 = closed_ q.
Proof.
  intros Hc. destruct c as [item|item|out n req| |]; simpl; try done.
  - pose proof (put_keeps_closed q item) as H.
    by destruct (put q item) as [[r q'] cv].
  - unfold get. destruct q as [[|x l] [|]]; done.
  - pose proof (get_batch_keeps_closed q out n req) as H.
    by destruct (get_batch q out n req) as [r q'].
Qed.

Lemma run_stays_open calls : forall q,
  closed_ q = false -> call_close ∉ calls ->
  closed_ (run calls q).2 = false.
Proof.
  induction calls as [|c calls IH]; intros q Hc Hno; simpl; [done|].
  apply not_elem_of_cons in Hno as [Hne Hno].
  pose proof (perform_keeps_closed q c ltac:(congruence)) as Hk.
  destruct (perform q c) as [a q1]; simpl in Hk.
  specialize (IH q1 ltac:(congruence) Hno).
  by destruct (run calls q1).
Qed.

(** Only [close()] closes the queue: in a sequence of calls without
    [close()] on an open queue, the queue stays open and every [put]
    returns and notifies one waiter. *)
Theorem open_queue_accepts_every_put q calls :
  closed_ q = false -> call_close ∉ calls ->
  closed_ (run calls q).2 = false
  /\ forall i item, calls !! i = Some (call_put item) ->
       (run calls q).1 !! i = Some (put_answer (Returns tt) [notify_one]).
Proof.
  intros Hc Hno. split; [by apply run_stays_open|].
  intros i item Hi.
  destruct (run_lookup calls q i _ Hi) as [-> _].
  assert (Hopen : closed_ (run (take i calls) q).2 = false).
  { apply run_stays_open; [done|].
    intros Hin. apply Hno.
    apply elem_of_take in Hin as (j & Hj & _).
    apply list_elem_of_lookup. eauto. }
  simpl. unfold put. by rewrite Hopen.
Qed.

End FifoFacts.

Section FifoExamples.
Import BlockingQueue.

Lemma get_batch_conserves_witness :
  [9; 1; 2] ++ items_ (mk [3] false) = [9] ++ items_ (mk [1; 2; 3] false)
  /\ [9] `prefix_of` [9; 1; 2]
  /\ closed_ (mk [3] false) = closed_ (mk [1; 2; 3] false).
Proof.
  apply (get_batch_conserves (mk [1; 2; 3] false) [9] 2%N true true
           [9; 1; 2] (mk [3] false)).
  reflexivity.
Defined.

Lemma get_batch_bounds_witness :
  length [9; 1; 2] <= length [9] + N.to_nat 2
  /\ (true = true -> 2%N <> 0%N -> length [9] < length [9; 1; 2]).
Proof.
  apply (get_batch_bounds (mk [1; 2; 3] false) [9] 2%N true
           [9; 1; 2] (mk [3] false)).
  reflexivity.
Defined.

Lemma put_get_round_trip_witness :
  run ((call_put <$> [2; 3]) ++ (call_get <$> [0; 0; 0])) (mk [1] false)
  = (((fun _ => put_answer (Returns tt) [notify_one]) <$> [2; 3])
     ++ ((fun x => get_answer (Ready (true, x))) <$> [1; 2; 3]),
     mk [] false).
Proof.
  apply (put_get_round_trip (mk [1] false) [2; 3] [0; 0; 0]);
    reflexivity.
Defined.

Lemma open_queue_accepts_every_put_witness :
  closed_ (run [call_get 0; call_put 4; call_isEmpty] (mk [] false)).2 = false
  /\ forall i item,
       [call_get 0; call_put 4; call_isEmpty] !! i = Some (call_put item) ->
       (run [call_get 0; call_put 4; call_isEmpty] (mk [] false)).1 !! i
       = Some (put_answer (Returns tt) [notify_one]).
Proof.
  apply (open_queue_accepts_every_put (mk [] false)
           [call_get 0; call_put 4; call_isEmpty]).
  - reflexivity.
  - intros Hin. repeat (apply elem_of_cons in Hin as [Hin|Hin];
      [discriminate|]). by apply elem_of_nil in Hin.
Defined.

End FifoExamples.

(** ** TimeMachine: what a pass keeps *)

Section PassFacts.
Context {W : Type}.
Import TimeMachine.
Implicit Types (picked rest : list (QueueData W)) (w : W).

Lemma process_suffix_sublist ms n : forall rest w,
  length rest <= n -> (process_suffix ms rest w).1 `sublist_of` rest.
Proof.
  induction n as [|n IH]; intros rest w Hn.
  - destruct rest; [|simpl in Hn; lia]. constructor.
  - destruct rest as [|item rest1]; [constructor|].
    simpl in *. destruct (item.1 ms w) as [[|] w1].
    + destruct rest1 as [|stepped_over rest2]; [apply sublist_nil_l|].
      simpl in Hn.
      pose proof (IH rest2 (item.2 w1) ltac:(lia)) as Hsub.
      destruct (process_suffix ms rest2 (item.2 w1)) as [kept w2].
      simpl in *. apply sublist_cons. by apply sublist_skip.
    + pose proof (IH rest1 w1 ltac:(lia)) as Hsub.
      destruct (process_suffix ms rest1 w1) as [kept w2].
      simpl in *. by apply sublist_skip.
Qed.

(** A pass only erases: the items left in [picked] are items it held,
    in the order it held them, and none twice. *)
Theorem process_objects_keeps_order ms picked w :
  (process_objects_ ms picked w).1 `sublist_of` picked.
Proof.
  rewrite process_objects_by_suffix.
  by apply (process_suffix_sublist ms (length picked)).
Qed.

(** When every probe answers false, a pass leaves [picked] as it is. *)
Theorem process_objects_all_waiting ms picked w :
  (forall item, item ∈ picked -> forall w', (item.1 ms w').1 = false) ->
  (process_objects_ ms picked w).1 = picked.
Proof.
  rewrite process_objects_by_suffix. revert w.
  induction picked as [|item rest IH]; intros w Hall; [done|].
  simpl. pose proof (Hall item ltac:(left) w) as Hitem.
  destruct (item.1 ms w) as [ready w1]; simpl in Hitem; subst ready.
  specialize (IH w1 ltac:(intros; apply Hall; by right)).
  destruct (process_suffix ms rest w1) as [kept w2]. simpl in *.
  by f_equal.
Qed.

Lemma process_suffix_all_ready ms n : forall rest w,
  length rest <= n ->
  (forall item, item ∈ rest -> forall w', (item.1 ms w').1 = true) ->
  forall k, (process_suffix ms rest w).1 !! k = rest !! (2 * k + 1).
Proof.
  induction n as [|n IH]; intros rest w Hn Hall k.
  - destruct rest; [|simpl in Hn; lia]. done.
  - destruct rest as [|item rest1]; [done|].
    simpl in Hn. simpl process_suffix.
    pose proof (Hall item ltac:(left) w) as Hitem.
    destruct (item.1 ms w) as [ready w1]; simpl in Hitem; subst ready.
    destruct rest1 as [|stepped_over rest2].
    { replace (2 * k + 1) with (S (2 * k)) by lia. simpl.
      by rewrite !lookup_nil. }
    simpl in Hn.
    pose proof (IH rest2 (item.2 w1) ltac:(lia)
                  ltac:(intros; apply Hall; right; by right)) as Hrec.
    destruct (process_suffix ms rest2 (item.2 w1)) as [kept w2].
    cbn [fst] in Hrec |- *. destruct k as [|k]; [done|].
    replace (2 * S k + 1) with (S (S (2 * k + 1))) by lia.
    change ((stepped_over :: kept) !! S k) with (kept !! k).
    change ((item :: stepped_over :: rest2) !! S (S (2 * k + 1)))
      with (rest2 !! (2 * k + 1)).
    apply Hrec.
Qed.

(** When every probe answers true, a pass runs and erases every other
    item only: the items at the odd positions of [picked] are left, so
    half of a full buffer stays for the next pass. *)
Theorem process_objects_all_ready ms picked w :
  (forall item, item ∈ picked -> forall w', (item.1 ms w').1 = true) ->
  (forall k, (process_objects_ ms picked w).1 !! k = picked !! (2 * k + 1))
  /\ length (process_objects_ ms picked w).1 = length picked / 2.
Proof.
  intros Hall. rewrite process_objects_by_suffix.
  pose proof (process_suffix_all_ready ms (length picked) picked w
                ltac:(done) Hall) as Hk.
  split; [done|].
  set (left := (process_suffix ms picked w).1) in *.
  destruct (Nat.lt_ge_cases (length left) (length picked / 2)) as [Hlt|Hge].
  - assert (Hnone : left !! length left = None)
      by (apply lookup_ge_None; lia).
    rewrite Hk in Hnone. apply lookup_ge_None in Hnone.
    pose proof (Nat.div_mod_eq (length picked) 2).
    pose proof (Nat.mod_upper_bound (length picked) 2). lia.
  - destruct (Nat.eq_dec (length left) (length picked / 2)) as [|Hne];
      [done|].
    assert (Hsome : is_Some (left !! (length picked / 2)))
      by (apply lookup_lt_is_Some; lia).
    rewrite Hk in Hsome. apply lookup_lt_is_Some in Hsome.
    pose proof (Nat.div_mod_eq (length picked) 2).
    pose proof (Nat.mod_upper_bound (length picked) 2). lia.
Qed.

End PassFacts.

Section PassExamples.
Import TimeMachine.

Lemma process_objects_all_waiting_witness :
  (process_objects_ 20 [recording 0 false; recording 1 false] []).1
  = [recording 0 false; recording 1 false].
Proof.
  apply (process_objects_all_waiting 20
           [recording 0 false; recording 1 false] []).
  intros item Hin w'.
  repeat (apply elem_of_cons in Hin as [->|Hin]; [reflexivity|]).
  by apply elem_of_nil in Hin.
Defined.

Lemma process_objects_all_ready_witness :
  (forall k,
     (process_objects_ 20
        [recording 0 true; recording 1 true; recording 2 true] []).1 !! k
     = [recording 0 true; recording 1 true; recording 2 true] !! (2 * k + 1))
  /\ length (process_objects_ 20
               [recording 0 true; recording 1 true; recording 2 true] []).1
     = 3 / 2.
Proof.
  apply (process_objects_all_ready 20
           [recording 0 true; recording 1 true; recording 2 true] []).
  intros item Hin w'.
  repeat (apply elem_of_cons in Hin as [->|Hin]; [reflexivity|]).
  by apply elem_of_nil in Hin.
Defined.

End PassExamples.

(** ** TimeMachine: more on [then] *)

Section ContinuationFacts.
Context {V : Type}.
Import TimeMachine.
Implicit Types (s : list (shared_state V)) (func : shared_state V -> result V)
  (m : machine (list (shared_state V))).

(** [then] on a machine whose queue is closed throws [QueueClosed] and
    leaves the queue, the store and the threads as they were: nothing is
    scheduled and no promise stays behind. *)
Theorem then_on_closed_queue m future func :
  BlockingQueue.closed_ (queue_ m) = true ->
  then_ m future func = (Throws QueueClosed, m).
Proof.
  intros Hc. unfold then_, BlockingQueue.put. by rewrite Hc.
Qed.

(** When [then(future, func)] returns [new_future] and the action of the
    item it queued runs with [func] returning [v], [new_future] holds
    [v] and no other shared state changes. *)
Theorem then_fulfils_value m m' future func new_future :
  then_ m future func = (Returns new_future, m') ->
  exists item,
    BlockingQueue.items_ (queue_ m')
    = BlockingQueue.items_ (queue_ m) ++ [item]
    /\ forall s v,
         s !! new_future = Some not_ready ->
         func (state_at s future) = Returns v ->
         item.2 s = <[new_future := has_value v]> s
         /\ state_at (item.2 s) new_future = has_value v.
Proof.
  unfold then_, BlockingQueue.put.
  destruct (BlockingQueue.closed_ (queue_ m)) eqn:Hc; [discriminate|].
  intros Heq. inversion Heq; subst new_future m'; clear Heq.
  eexists. split; [reflexivity|].
  intros s v Hp Hf. simpl.
  rewrite (then_action_returns _ _ _ _ v Hp Hf). split; [done|].
  unfold state_at. rewrite list_lookup_insert_eq; [done|].
  by apply lookup_lt_Some in Hp.
Qed.

Lemma satisfy_other p st s p' :
  p' <> p -> (satisfy p st s).2 !! p' = s !! p'.
Proof.
  intros Hne. unfold satisfy.
  destruct (s !! p) as [[| |]|]; simpl; try done.
  by apply list_lookup_insert_ne.
Qed.

Lemma satisfy_set p st s st0 :
  s !! p = Some st0 -> st0 <> not_ready -> (satisfy p st s).2 = s.
Proof.
  intros Hp Hne. unfold satisfy. rewrite Hp. by destruct st0.
Qed.

Lemma satisfy_length p st s : length (satisfy p st s).2 = length s.
Proof.
  unfold satisfy. destruct (s !! p) as [[| |]|]; simpl; try done.
  by rewrite length_insert.
Qed.

Lemma then_action_cases future_ptr promise func s :
  then_action future_ptr promise func s = s
  \/ exists st, then_action future_ptr promise func s
                = (satisfy promise st s).2.
Proof.
  unfold then_action, try_catch, set_value, set_exception.
  destruct (func (state_at s future_ptr)) as [v|e].
  - destruct (satisfy promise (has_value v) s) as [[[]|e] s1] eqn:Hs.
    + right. exists (has_value v). by rewrite Hs.
    + assert (s1 = s) as ->.
      { unfold satisfy in Hs.
        destruct (s !! promise) as [[| |]|]; by inversion Hs. }
      destruct (satisfy promise (has_exception e) s) as [[[]|e'] s2] eqn:Hs2.
      * right. exists (has_exception e). by rewrite Hs2.
      * right. exists (has_exception e). by rewrite Hs2.
  - destruct (satisfy promise (has_exception e) s) as [[[]|e'] s2] eqn:Hs2.
    + right. exists (has_exception e). by rewrite Hs2.
    + right. exists (has_exception e). by rewrite Hs2.
Qed.

(** The action of a [then] item writes no shared state but its own
    promise, allocates nothing, and leaves a promise that is already
    satisfied as it is: run again, it changes nothing. *)
Theorem then_action_writes_own_promise_once future_ptr promise func s :
  (forall p, p <> promise ->
     then_action future_ptr promise func s !! p = s !! p)
  /\ length (then_action future_ptr promise func s) = length s
  /\ (forall st, s !! promise = Some st -> st <> not_ready ->
        then_action future_ptr promise func s = s)
  /\ then_action future_ptr promise func
       (then_action future_ptr promise func s)
     = then_action future_ptr promise func s.
Proof.
  assert (Hset : forall s0 st, s0 !! promise = Some st -> st <> not_ready ->
            then_action future_ptr promise func s0 = s0).
  { intros s0 st Hp Hne.
    destruct (then_action_cases future_ptr promise func s0)
      as [->|[st' ->]]; [done|].
    by eapply satisfy_set. }
  split; [|split; [|split]].
  - intros p Hne.
    destruct (then_action_cases future_ptr promise func s)
      as [->|[st ->]]; [done|]. by apply satisfy_other.
  - destruct (then_action_cases future_ptr promise func s)
      as [->|[st ->]]; [done|]. by apply satisfy_length.
  - apply Hset.
  - destruct (s !! promise) as [st|] eqn:Hp.
    + assert (Hdec : st = not_ready \/ st <> not_ready)
        by (destruct st; [by left|by right..]).
      destruct Hdec as [->|Hne].
      * destruct (func (state_at s future_ptr)) as [v|e] eqn:Hf.
        -- rewrite (then_action_returns _ _ _ _ v Hp Hf).
           apply (Hset _ (has_value v)); [|done].
           apply list_lookup_insert_eq. by apply lookup_lt_Some in Hp.
        -- rewrite (then_action_throws _ _ _ _ e Hp Hf).
           apply (Hset _ (has_exception e)); [|done].
           apply list_lookup_insert_eq. by apply lookup_lt_Some in Hp.
      * by rewrite (Hset s st Hp Hne), (Hset s st Hp Hne).
    + assert (Hsame : then_action future_ptr promise func s = s).
      { destruct (then_action_cases future_ptr promise func s)
          as [->|[st ->]]; [done|]. unfold satisfy. by rewrite Hp. }
      by rewrite Hsame, Hsame.
Qed.

(** Order within a chain: while the deferred [d2] that a first [then]
    returned is not ready, a pass over the item of a second
    [then(d2, g)] neither runs [g] nor touches the store and keeps the
    item; once the first action has run, the probe of the second item
    answers true. *)
Theorem chained_continuation_waits ms d1 d2 d3
    (f g : shared_state V -> result V) s :
  s !! d2 = Some not_ready ->
  process_objects_ ms [then_item d2 d3 g] s = ([then_item d2 d3 g], s)
  /\ wait_for d2 ms (then_action d1 d2 f s) = true.
Proof.
  intros Hp. split.
  - unfold process_objects_. simpl. unfold wait_for, state_at.
    by rewrite Hp.
  - assert (Hlt : d2 < length s) by (by apply lookup_lt_Some in Hp).
    unfold wait_for, state_at.
    destruct (f (state_at s d1)) as [v|e] eqn:Hf.
    + rewrite (then_action_returns _ _ _ _ v Hp Hf).
      by rewrite list_lookup_insert_eq.
    + rewrite (then_action_throws _ _ _ _ e Hp Hf).
      by rewrite list_lookup_insert_eq.
Qed.

(** Two [then] calls in a row return two different deferreds, both not
    ready, and queue their items in the order of the calls. *)
Theorem then_twice m m1 m2 future1 future2 func1 func2 p1 p2 :
  then_ m future1 func1 = (Returns p1, m1) ->
  then_ m1 future2 func2 = (Returns p2, m2) ->
  p1 <> p2
  /\ BlockingQueue.items_ (queue_ m2)
     = BlockingQueue.items_ (queue_ m)
       ++ [then_item future1 p1 func1; then_item future2 p2 func2]
  /\ world m2 !! p1 = Some not_ready /\ world m2 !! p2 = Some not_ready
  /\ forall p, p < length (world m) -> world m2 !! p = world m !! p.
Proof.
  unfold then_, BlockingQueue.put.
  destruct (BlockingQueue.closed_ (queue_ m)) eqn:Hc; [discriminate|].
  intros [= <- <-]. simpl.
  intros [= <- <-]. simpl. rewrite !length_app. simpl.
  split; [lia|]. split; [by rewrite <- app_assoc|].
  split; [|split].
  - rewrite lookup_app_l by (rewrite length_app; simpl; lia).
    rewrite lookup_app_r by lia. by rewrite Nat.sub_diag.
  - rewrite lookup_app_r by (rewrite length_app; simpl; lia).
    rewrite length_app. simpl.
    by replace (length (world m) + 1 - (length (world m) + 1)) with 0 by lia.
  - intros p Hp. rewrite <- app_assoc. by rewrite lookup_app_l.
Qed.

End ContinuationFacts.

Section ContinuationExamples.
Import TimeMachine.

Lemma then_on_closed_queue_witness :
  let m := mk_machine (BlockingQueue.mk [] true) 0 10 20 [] wait_queue
             [has_value 1] in
  then_ m 0 get_plus_one = (Throws QueueClosed, m).
Proof.
  apply (then_on_closed_queue
           (mk_machine (BlockingQueue.mk [] true) 0 10 20 [] wait_queue
              [has_value 1]) 0 get_plus_one).
  reflexivity.
Defined.

Lemma then_fulfils_value_witness :
  let m := create 1 10 20 [has_value 1] in
  exists item,
    BlockingQueue.items_ (queue_ (then_ m 0 get_plus_one).2) = [] ++ [item]
    /\ forall s v,
         s !! 1 = Some not_ready ->
         get_plus_one (state_at s 0) = Returns v ->
         item.2 s = <[1 := has_value v]> s
         /\ state_at (item.2 s) 1 = has_value v.
Proof.
  apply (then_fulfils_value
           (create 1 10 20 [has_value 1])
           (then_ (create 1 10 20 [has_value 1]) 0 get_plus_one).2
           0 get_plus_one 1).
  reflexivity.
Defined.

Lemma then_action_writes_own_promise_once_witness :
  then_action 0 1 get_plus_one [has_value 1; has_value 7]
  = [has_value 1; has_value 7].
Proof.
  apply (proj1 (proj2 (proj2 (then_action_writes_own_promise_once 0 1
           get_plus_one [has_value 1; has_value 7]))) (has_value 7)).
  - reflexivity.
  - discriminate.
Defined.

Lemma chained_continuation_waits_witness :
  process_objects_ 20 [then_item 1 2 get_plus_one]
    [has_value 1; not_ready; not_ready]
  = ([then_item 1 2 get_plus_one], [has_value 1; not_ready; not_ready])
  /\ wait_for 1 20
       (then_action 0 1 get_plus_one [has_value 1; not_ready; not_ready])
     = true.
Proof.
  apply (chained_continuation_waits 20 0 1 2 get_plus_one get_plus_one
           [has_value 1; not_ready; not_ready]).
  reflexivity.
Defined.

Lemma then_twice_witness :
  let m := create 1 10 20 [has_value 1] in
  let m1 := (then_ m 0 get_plus_one).2 in
  let m2 := (then_ m1 1 get_plus_one).2 in
  1 <> 2
  /\ BlockingQueue.items_ (queue_ m2)
     = BlockingQueue.items_ (queue_ m)
       ++ [then_item 0 1 get_plus_one; then_item 1 2 get_plus_one]
  /\ world m2 !! 1 = Some not_ready /\ world m2 !! 2 = Some not_ready
  /\ forall p, p < length (world m) -> world m2 !! p = world m !! p.
Proof.
  apply (then_twice (create 1 10 20 [has_value 1])
           (then_ (create 1 10 20 [has_value 1]) 0 get_plus_one).2
           (then_ (then_ (create 1 10 20 [has_value 1]) 0 get_plus_one).2
              1 get_plus_one).2
           0 1 get_plus_one get_plus_one 1 2); reflexivity.
Defined.

End ContinuationExamples.

(** ** TimeMachine: what the threads keep *)

Section ThreadFacts.
Context {W : Type}.
Import TimeMachine.
Implicit Types (m : machine W).

Lemma size_t_sub_no_wrap (a b : N) :
  (b <= a)%N -> (a < 2 ^ 64)%N -> size_t_sub a b = (a - b)%N.
Proof.
  intros Hb Ha. unfold size_t_sub.
  rewrite (N.mod_small b) by lia.
  replace (a + 2 ^ 64 - b)%N with (a - b + 1 * 2 ^ 64)%N by lia.
  rewrite N.Div0.mod_add. apply N.mod_small. lia.
Qed.

Lemma get_batch_false_requires {T : Type} (q : BlockingQueue.t T)
    out_items max_count require_at_least_one out_items' :
  (BlockingQueue.get_batch q out_items max_count require_at_least_one).1
  = Ready (false, out_items') ->
  require_at_least_one = true.
Proof.
  unfold BlockingQueue.get_batch.
  destruct (max_count =? 0)%N; [discriminate|].
  destruct require_at_least_one; [done|]. simpl.
  rewrite drain_take_drop. discriminate.
Qed.

(** [state_] counts the workers that are between their [fetch_add] and
    their [fetch_sub]: with fewer than 2^63 threads, in every state the
    threads reach there are as many workers as were created and [state_]
    is the number of those inside their loop or about to decrement. *)
Theorem state_counts_active_workers number_of_threads objects_per_thread
    wait_for_object_ms (w : W) schedule m :
  (Z.of_nat number_of_threads < 2 ^ 63)%Z ->
  exec (create number_of_threads objects_per_thread wait_for_object_ms w)
    schedule = Some m ->
  length (workers m) = number_of_threads
  /\ state_ m = Z.of_nat (active_workers (workers m)).
Proof.
  intros Hn Hexec.
  apply (exec_counter_invariant _ _ _ _ Hn
           (create_counter_invariant _ _ _ _) Hexec).
Qed.

Lemma step_within_capacity opt m e m' :
  (opt < 2 ^ 64)%N ->
  within_capacity opt m -> step m e = Some m' -> within_capacity opt m'.
Proof.
  intros Hopt [Hfield Hall].
  assert (Hput : forall t, (N.of_nat (length (buffer_of t)) <= opt)%N ->
            forall i j t', <[i := t]> (workers m) !! j = Some t' ->
            (N.of_nat (length (buffer_of t')) <= opt)%N).
  { intros t Ht i j t' Hj.
    apply list_lookup_insert_Some in Hj as [(_ & <- & _)|[_ Hj]]; eauto. }
  destruct e as [i|item|change|]; simpl.
  - unfold worker_step.
    destruct (workers m !! i) as [[|picked|picked| |]|] eqn:Hi;
      try discriminate.
    + intros [= <-]. split; [done|]. simpl.
      intros j t'. apply Hput. simpl. lia.
    + pose proof (Hall i _ Hi) as Hlen. simpl in Hlen.
      destruct (get_batch_shape (queue_ m) picked
                  (size_t_sub (objects_per_thread_ m)
                     (N.of_nat (length picked)))
                  (vector_empty picked))
        as (k & Hk & _ & _ & Hr).
      rewrite Hfield, size_t_sub_no_wrap in Hk by done.
      destruct (BlockingQueue.get_batch _ _ _ _) as [[[[|] picked']|] q];
        try discriminate; intros [= <-]; (split; [done|]); simpl;
        intros j t'; apply Hput; simpl; [|lia].
      destruct Hr as [[? _]|(b & Hr & _)]; [discriminate|].
      simpl in Hr. injection Hr as _ ->.
      rewrite length_app, length_take. lia.
    + pose proof (Hall i _ Hi) as Hlen. simpl in Hlen.
      pose proof (process_loop_length (length picked)
                    (wait_for_object_ms_ m) 0 picked (world m)) as Hle.
      unfold process_objects_.
      destruct (process_loop _ _ _ _ _) as [picked' w].
      intros [= <-]. split; [done|]. simpl in *.
      intros j t'. apply Hput. simpl. lia.
    + intros [= <-]. split; [done|]. simpl.
      intros j t'. apply Hput. simpl. lia.
  - by intros [= <-].
  - by intros [= <-].
  - unfold destructor_step.
    destruct (dtor m); try discriminate.
    + by intros [= <-].
    + by destruct (BlockingQueue.isEmpty (queue_ m)); intros [= <-].
    + by destruct (state_ m =? 0)%Z; intros [= <-].
Qed.

(** A worker never holds more than [objects_per_thread_] items: in every
    state the threads reach, the [picked] vector of each worker has at
    most that many elements, so the subtraction
    [objects_per_thread_ - picked.size()] never wraps around. *)
Theorem workers_within_capacity number_of_threads objects_per_thread
    wait_for_object_ms (w : W) schedule m :
  (objects_per_thread < 2 ^ 64)%N ->
  exec (create number_of_threads objects_per_thread wait_for_object_ms w)
    schedule = Some m ->
  forall i t, workers m !! i = Some t ->
    (N.of_nat (length (buffer_of t)) <= objects_per_thread)%N.
Proof.
  intros Hopt Hexec.
  assert (Hinit : within_capacity objects_per_thread
            (create number_of_threads objects_per_thread
               wait_for_object_ms w)).
  { split; [done|]. simpl. intros i t Hi.
    apply lookup_replicate in Hi as [-> _]. simpl. lia. }
  revert Hinit Hexec.
  generalize (create number_of_threads objects_per_thread
                wait_for_object_ms w).
  induction schedule as [|e schedule IH]; intros m0 Hinv; simpl.
  - intros [= <-]. apply Hinv.
  - destruct (step m0 e) as [m1|] eqn:Hs; [|discriminate].
    apply IH. by eapply step_within_capacity.
Qed.

(** A worker leaves its loop only with an empty [picked] vector and a
    closed, empty queue, and the leaving [get] changes nothing: no item
    a worker has taken is dropped at shutdown. *)
Theorem worker_leaves_with_empty_buffer m i picked m' :
  workers m !! i = Some (at_get picked) ->
  worker_step m i = Some m' ->
  workers m' !! i = Some at_fetch_sub ->
  picked = [] /\ BlockingQueue.drained (queue_ m) /\ queue_ m' = queue_ m.
Proof.
  intros Hi Hstep Hleft. unfold worker_step in Hstep. rewrite Hi in Hstep.
  pose proof (lookup_lt_Some _ _ _ Hi) as Hlt.
  destruct (BlockingQueue.get_batch _ _ _ _) as [[[[|] picked']|] q] eqn:Hg;
    try discriminate; injection Hstep as <-; simpl in Hleft.
  - rewrite list_lookup_insert_eq in Hleft by done. discriminate.
  - pose proof (get_batch_false (queue_ m) picked
        (size_t_sub (objects_per_thread_ m) (N.of_nat (length picked)))
        (vector_empty picked) picked') as Hf.
    pose proof (get_batch_false_requires (queue_ m) picked
        (size_t_sub (objects_per_thread_ m) (N.of_nat (length picked)))
        (vector_empty picked) picked') as Hreq.
    rewrite Hg in Hf, Hreq. simpl in Hf, Hreq.
    destruct (Hf eq_refl) as [Hd Hq]. specialize (Hreq eq_refl).
    split; [by destruct picked|]. by split.
Qed.

Lemma step_idle m e m' :
  objects_per_thread_ m = 0%N ->
  (forall i t, workers m !! i = Some t -> idle t) ->
  step m e = Some m' ->
  objects_per_thread_ m' = 0%N
  /\ forall i t, workers m' !! i = Some t -> idle t.
Proof.
  intros Hopt Hall.
  assert (Hput : forall t, idle t ->
            forall i j t', <[i := t]> (workers m) !! j = Some t' -> idle t').
  { intros t Ht i j t' Hj.
    apply list_lookup_insert_Some in Hj as [(_ & <- & _)|[_ Hj]]; eauto. }
  destruct e as [i|item|change|]; simpl.
  - unfold worker_step.
    destruct (workers m !! i) as [t|] eqn:Hi; [|discriminate].
    destruct (Hall i t Hi) as [->|[->| ->]].
    + intros [= <-]. split; [done|]. simpl.
      intros j t'. apply Hput. right; by left.
    + rewrite Hopt. simpl.
      intros [= <-]. split; [done|]. simpl.
      intros j t'. apply Hput. right; by right.
    + simpl. intros [= <-]. split; [done|]. simpl.
      intros j t'. apply Hput. right; by left.
  - by intros [= <-].
  - by intros [= <-].
  - unfold destructor_step.
    destruct (dtor m); try discriminate.
    + by intros [= <-].
    + by destruct (BlockingQueue.isEmpty (queue_ m)); intros [= <-].
    + by destruct (state_ m =? 0)%Z; intros [= <-].
Qed.

(** With [objects_per_thread = 0] no worker ever takes an item or leaves
    its loop: each has not begun or goes round with an empty [picked]
    vector, whatever is put and whether or not the queue is closed. *)
Theorem zero_capacity_workers_idle number_of_threads wait_for_object_ms
    (w : W) schedule m :
  exec (create number_of_threads 0 wait_for_object_ms w) schedule = Some m ->
  forall i t, workers m !! i = Some t -> idle t.
Proof.
  intros Hexec.
  assert (Hinit : objects_per_thread_
                    (create number_of_threads 0 wait_for_object_ms w) = 0%N
                  /\ forall i t,
                       workers (create number_of_threads 0
                                  wait_for_object_ms w) !! i = Some t ->
                       idle t).
  { split; [done|]. simpl. intros i t Hi.
    apply lookup_replicate in Hi as [-> _]. by left. }
  revert Hinit Hexec.
  generalize (create number_of_threads 0 wait_for_object_ms w).
  induction schedule as [|e schedule IH]; intros m0 [Hopt Hall]; simpl.
  - intros [= <-]. apply Hall.
  - destruct (step m0 e) as [m1|] eqn:Hs; [|discriminate].
    apply IH. by eapply step_idle.
Qed.

End ThreadFacts.

Section ShutdownThen.
Context {V : Type}.
Import TimeMachine.

(** Once the destructor has begun, every [then] throws [QueueClosed] and
    schedules nothing, in every state the threads reach. *)
Theorem then_after_destructor_began number_of_threads objects_per_thread
    wait_for_object_ms (w : list (shared_state V)) schedule m future
    (func : shared_state V -> result V) :
  exec (create number_of_threads objects_per_thread wait_for_object_ms w)
    schedule = Some m ->
  dtor m <> not_called ->
  then_ m future func = (Throws QueueClosed, m).
Proof.
  intros Hexec Hd.
  destruct (exec_invariant _ _ _ (create_invariant _ _ _ _) Hexec)
    as [Hclosed _].
  unfold then_, BlockingQueue.put. by rewrite (Hclosed Hd).
Qed.

End ShutdownThen.

Section ThreadExamples.
Import TimeMachine.

Lemma state_counts_active_workers_witness :
  exists m,
    exec (create 1 10 20 []) shutdown_schedule = Some m
    /\ length (workers m) = 1
    /\ state_ m = Z.of_nat (active_workers (workers m)).
Proof.
  eexists. split; [reflexivity|].
  apply (state_counts_active_workers 1 10 20 [] shutdown_schedule _);
    reflexivity.
Defined.

Lemma workers_within_capacity_witness :
  exists m,
    exec (create 1 10 20 []) shutdown_schedule = Some m
    /\ forall i t, workers m !! i = Some t ->
         (N.of_nat (length (buffer_of t)) <= 10)%N.
Proof.
  eexists. split; [reflexivity|].
  apply (workers_within_capacity 1 10 20 [] shutdown_schedule _);
    reflexivity.
Defined.

Lemma worker_leaves_with_empty_buffer_witness :
  let m := mk_machine (BlockingQueue.mk [] true) 1 10 20
             [at_get ([] : list (QueueData (list invocation)))]
             wait_queue [] in
  ([] : list (QueueData (list invocation))) = []
  /\ BlockingQueue.drained (queue_ m)
  /\ queue_ (with_queue (with_worker m 0 at_fetch_sub) (queue_ m))
     = queue_ m.
Proof.
  apply (worker_leaves_with_empty_buffer
           (mk_machine (BlockingQueue.mk [] true) 1 10 20
              [at_get ([] : list (QueueData (list invocation)))]
              wait_queue [])
           0 []); reflexivity.
Defined.

Lemma zero_capacity_workers_idle_witness :
  exists m,
    exec (create 1 0 20 [])
      [worker_moves 0; put_item (recording 0 true); worker_moves 0;
       worker_moves 0] = Some m
    /\ forall i t, workers m !! i = Some t -> idle t.
Proof.
  eexists. split; [reflexivity|].
  apply (zero_capacity_workers_idle 1 20 []
           [worker_moves 0; put_item (recording 0 true); worker_moves 0;
            worker_moves 0] _).
  reflexivity.
Defined.

Lemma then_after_destructor_began_witness :
  exists m,
    exec (create 1 10 20 [has_value 1])
      [destructor_moves : event (list (shared_state nat))] = Some m
    /\ then_ m 0 get_plus_one = (Throws QueueClosed, m).
Proof.
  eexists. split; [reflexivity|].
  apply (then_after_destructor_began 1 10 20 [has_value 1]
           [destructor_moves] _ 0 get_plus_one).
  - reflexivity.
  - discriminate.
Defined.

(** With no room, the item put while the worker runs is still queued. *)
Example zero_capacity_item_stays :
  (fun m => length (BlockingQueue.items_ (queue_ m))) <$>
    exec (create 1 0 20 [])
      [worker_moves 0; put_item (recording 0 true); worker_moves 0;
       worker_moves 0; worker_moves 0; worker_moves 0]
  = Some 1.
Proof. reflexivity. Qed.

End ThreadExamples.

(** ** result.hpp: TransactionResult *)

Section TransactionResultFacts.
Context {op_type Result_ptr : Type}.
Import TransactionResult.
Implicit Types (r : @TransactionResult.t op_type Result_ptr)
  (xs : list (@OperationResult op_type Result_ptr)).

Lemma pop_back_push_back r x : pop_back (push_back r x) = Some r.
Proof.
  unfold pop_back, push_back.
  destruct (r ++ [x]) as [|y l] eqn:Heq.
  - by destruct r.
  - rewrite <- Heq. by rewrite removelast_last.
Qed.

Lemma foldl_push_back xs : forall r, foldl push_back r xs = r ++ xs.
Proof.
  induction xs as [|x xs IH]; intros r; simpl.
  - by rewrite app_nil_r.
  - rewrite IH. unfold push_back. by rewrite <- app_assoc.
Qed.

(** Results pushed one after the other are visited from [begin()] to
    [end()] after the older ones and in the order they were pushed; as
    many [pop_back] calls as there were pushes give the older results
    back; [emplace_back] is [push_back] of the pair it builds. *)
Theorem push_back_pop_back_round_trip r xs :
  elements (foldl push_back r xs) = elements r ++ xs
  /\ pop_back_times (length xs) (foldl push_back r xs) = Some r
  /\ forall type result,
       emplace_back r type result = push_back r (type, result).
Proof.
  rewrite foldl_push_back. split; [done|]. split; [|done].
  induction xs as [|x xs IH] using rev_ind; [by rewrite app_nil_r|].
  rewrite length_app. simpl.
  replace (length xs + 1) with (S (length xs)) by lia. simpl.
  rewrite app_assoc.
  change ((r ++ xs) ++ [x]) with (push_back (r ++ xs) x).
  by rewrite pop_back_push_back.
Qed.

End TransactionResultFacts.

Section PassThenExamples.
Import TimeMachine.

Lemma process_then_item_throws_witness :
  process_objects_ 20 [then_item 0 1 get_plus_one]
    [has_exception NoEntry; not_ready]
  = ([], <[1 := has_exception NoEntry]> [has_exception NoEntry; not_ready]).
Proof.
  apply (process_then_item_throws 20 0 1 get_plus_one
           [has_exception NoEntry; not_ready] NoEntry); reflexivity.
Defined.

End PassThenExamples.
